(** * InfoGaiter: the retrieval pipeline of [functions.py]

    A shallow embedding of the chunker, the TF-IDF ranker, the optional
    re-ranker, the generation client and the two orchestrators of
    [functions.py], with the constants of [config.py].

    Conventions.
    - A Python [str] is a [string]; its characters are the code points
      below 256, so [isspace] and [isword] follow Python on that range.
    - Python [int]s are [Z]; list lengths are [nat] and are injected.
    - Similarity scores are floats in the source.  A float is a
      rational, and the code compares and sorts scores exactly, so they
      are rationals here; the one rounding operation on them, the mean
      [np.mean], is a parameter of the ranker.
    - An exception that leaves a function is a [Raise] result. *)

From Stdlib Require Import List String Ascii ZArith QArith Qminmax Bool Lia
  Permutation Sorted Arith.
Import ListNotations.
Close Scope Q_scope.
Local Open Scope string_scope.
Local Open Scope list_scope.

(** ** Python strings *)

Module PyStr.

(** [str.isspace] on one character, code points below 256: TAB..CR,
    FS..US, space, NEL and NBSP. *)
Definition isspace (c : ascii) : bool :=
  let n := nat_of_ascii c in
  (((9 <=? n) && (n <=? 13)) || ((28 <=? n) && (n <=? 32))
   || (n =? 133) || (n =? 160))%nat.

(** The class [[\.!?]] of the sentence pattern. *)
Definition is_terminator (c : ascii) : bool :=
  let n := nat_of_ascii c in
  ((n =? 46) || (n =? 33) || (n =? 63))%nat.

(** The class [\w] of [re] on a [str] pattern: alphanumerics and the
    underscore, code points below 256. *)
Definition isword (c : ascii) : bool :=
  let n := nat_of_ascii c in
  (((48 <=? n) && (n <=? 57)) || ((65 <=? n) && (n <=? 90))
   || ((97 <=? n) && (n <=? 122)) || (n =? 95)
   || (n =? 170) || (n =? 178) || (n =? 179) || (n =? 181)
   || (n =? 185) || (n =? 186) || ((188 <=? n) && (n <=? 190))
   || ((192 <=? n) && (n <=? 214)) || ((216 <=? n) && (n <=? 246))
   || ((248 <=? n) && (n <=? 255)))%nat.

Definition snoc (s : string) (c : ascii) : string := s ++ String c "".

(** What is emitted when a word ends: nothing for the empty buffer. *)
Definition flush (cur : string) : list string :=
  match cur with
  | "" => []
  | _ => [cur]
  end.

(** [s.split()]: maximal runs of non-space characters, in order.
    [cur] is the word being read. *)
Fixpoint words_from (cur : string) (s : string) : list string :=
  match s with
  | "" => flush cur
  | String c s' =>
      if isspace c then flush cur ++ words_from "" s'
      else words_from (snoc cur c) s'
  end.

Definition split (s : string) : list string := words_from "" s.

(** [" ".join(ws)]. *)
Definition join (ws : list string) : string := String.concat " " ws.

Fixpoint lstrip (s : string) : string :=
  match s with
  | "" => ""
  | String c s' => if isspace c then lstrip s' else s
  end.

Fixpoint rstrip (s : string) : string :=
  match s with
  | "" => ""
  | String c s' =>
      match rstrip s' with
      | "" => if isspace c then "" else String c ""
      | r => String c r
      end
  end.

(** [s.strip()]. *)
Definition strip (s : string) : string := rstrip (lstrip s).

(** [s[:n]]. *)
Definition prefix (n : nat) (s : string) : string := substring 0 n s.

(** [s.lower().endswith(".pdf")], through the reversed string. *)
Definition lower (c : ascii) : ascii :=
  let n := nat_of_ascii c in
  if ((65 <=? n) && (n <=? 90))%nat then ascii_of_nat (n + 32) else c.

Fixpoint rev_onto (acc s : string) : string :=
  match s with
  | "" => acc
  | String c s' => rev_onto (String c acc) s'
  end.

Definition ends_with_pdf (s : string) : bool :=
  match rev_onto "" s with
  | String f (String d (String p (String dot _))) =>
      Ascii.eqb (lower f) "f" && Ascii.eqb (lower d) "d"
      && Ascii.eqb (lower p) "p" && Ascii.eqb dot "."
  | _ => false
  end.

(** A word, as [split] produces them: not empty, no space inside. *)
Fixpoint spacefree (s : string) : bool :=
  match s with
  | "" => true
  | String c s' => negb (isspace c) && spacefree s'
  end.

Definition is_word (w : string) : Prop := w <> "" /\ spacefree w = true.

End PyStr.

(** ** Sentences and chunks *)

(** The scanner's position relative to the pattern
    [(?<=[\.!?])\s+]: just after a terminator, inside a matched run of
    spaces, or anywhere else. *)
Inductive scan := Plain | AfterTerminator | InGap.

Definition scan_next (c : ascii) : scan :=
  if PyStr.is_terminator c then AfterTerminator else Plain.

(** [re.split(r"(?<=[\.!?])\s+", s)]: a delimiter is a maximal run of
    spaces that starts right after a terminator; the pieces between the
    delimiters are returned, the last one too (it may be empty). *)
Fixpoint re_split_from (st : scan) (cur : string) (s : string) : list string :=
  match s with
  | "" => [cur]
  | String c s' =>
      match st with
      | InGap =>
          if PyStr.isspace c then re_split_from InGap cur s'
          else re_split_from (scan_next c) (PyStr.snoc cur c) s'
      | AfterTerminator =>
          if PyStr.isspace c then cur :: re_split_from InGap "" s'
          else re_split_from (scan_next c) (PyStr.snoc cur c) s'
      | Plain => re_split_from (scan_next c) (PyStr.snoc cur c) s'
      end
  end.

Definition _split_into_sentences (text : string) : list string :=
  re_split_from Plain "" (PyStr.strip text).

Definition MAX_WORDS_PER_CHUNK : Z := 500.
Definition TOP_K_CHUNKS_FOR_QA : nat := 3.
Definition MODEL_PRIORITY : list string :=
  ["llama-3.3-70b-versatile"; "llama-3.1-8b-instant"].
Definition PDF_FOLDER : string := "pdfs".

Definition len {A} (l : list A) : Z := Z.of_nat (List.length l).

(** The loop state of [chunk_text]: [chunks], [current], [wc]. *)
Definition chunker : Type := list string * list string * Z.

(** [if current: chunks.append(" ".join(current))]. *)
Definition close_chunk (chunks current : list string) : list string :=
  match current with
  | [] => chunks
  | _ => chunks ++ [PyStr.join current]
  end.

(** One iteration of the loop over the sentences. *)
Definition chunk_step (max_words : Z) (st : chunker) (s : string) : chunker :=
  let '(chunks, current, wc) := st in
  let words := PyStr.split s in
  match words with
  | [] => st
  | _ =>
      if (wc + len words >? max_words)%Z
      then (close_chunk chunks current, words, len words)
      else (chunks, current ++ words, (wc + len words)%Z)
  end.

Definition chunk_text (text : string) (max_words : Z) : list string :=
  let '(chunks, current, _) :=
    fold_left (chunk_step max_words) (_split_into_sentences text) ([], [], 0%Z) in
  close_chunk chunks current.

(** The words of a chunk list, chunk after chunk. *)
Definition chunk_words (chunks : list string) : list string :=
  List.concat (map PyStr.split chunks).

(** ** Vocabulary of the chunker's specification *)

Definition nonempty {A} (l : list A) : bool :=
  match l with
  | [] => false
  | _ => true
  end.

(** The word lists of the sentences that have words, in order. *)
Definition sentence_words (sentences : list string) : list (list string) :=
  filter nonempty (map PyStr.split sentences).

(** The chunk made of a group of consecutive sentences. *)
Definition group_chunk (g : list (list string)) : string :=
  PyStr.join (List.concat g).

(** A group respects the limit, or it is one sentence longer than it. *)
Definition within_limit (L : Z) (g : list (list string)) : Prop :=
  (len (List.concat g) <= L)%Z \/ exists ws, g = [ws] /\ (L < len ws)%Z.

Definition proper_sentence (ws : list string) : Prop :=
  ws <> [] /\ Forall PyStr.is_word ws.

Definition good_group (L : Z) (g : list (list string)) : Prop :=
  g <> [] /\ Forall proper_sentence g /\ within_limit L g.

(** What the loop of [chunk_text] maintains after the sentences [done]:
    closed groups, and the open group [g] behind [current]. *)
Definition chunker_inv (L : Z) (done : list (list string)) (st : chunker)
  : Prop :=
  exists groups g,
    st = (map group_chunk groups, List.concat g, len (List.concat g))
    /\ List.concat groups ++ g = done
    /\ Forall (good_group L) groups
    /\ Forall proper_sentence g
    /\ (g = [] \/ within_limit L g).

(** ** Exceptions *)

Inductive exn := ValueError (msg : string).

Inductive result (A : Type) : Type :=
  | Ok (a : A)
  | Raise (e : exn).
Arguments Ok {A} a.
Arguments Raise {A} e.

Definition bind {A B} (r : result A) (k : A -> result B) : result B :=
  match r with
  | Ok a => k a
  | Raise e => Raise e
  end.

Notation "x <- r ;; k" := (bind r (fun x => k))
  (at level 61, r at next level, right associativity).
Notation "' pat <- r ;; k" := (bind r (fun x => match x with pat => k end))
  (at level 61, pat pattern, r at next level, right associativity).

(** ** The bundled documents *)

(** A file of the folder as PyMuPDF sees it: [pymupdf.open] raises; or
    the file opens but iterating its pages raises (a password-protected
    file); or it gives pages, each with its text unless [get_text]
    raises. *)
Inductive pdf_file :=
  | Unreadable
  | Locked
  | Pages (texts : list (option string)).

(** What [for p in doc] raises on a locked document. *)
Definition document_locked : exn :=
  ValueError "document closed or encrypted".

(** The folder [PDF_FOLDER]: [None] when it does not exist, else the
    directory entries in the order [os.listdir] gives them. *)
Definition folder : Type := option (list (string * pdf_file)).

Fixpoint str_leb (a b : string) : bool :=
  match a, b with
  | "", _ => true
  | String _ _, "" => false
  | String x a', String y b' =>
      if (nat_of_ascii x <? nat_of_ascii y)%nat then true
      else if (nat_of_ascii y <? nat_of_ascii x)%nat then false
      else str_leb a' b'
  end.

Fixpoint insert_name (x : string) (l : list string) : list string :=
  match l with
  | [] => [x]
  | y :: l' => if str_leb x y then x :: l else y :: insert_name x l'
  end.

(** [files.sort()] on names. *)
Definition sort_names (l : list string) : list string :=
  fold_right insert_name [] l.

Definition discover_pdfs (f : folder) : list string :=
  match f with
  | None => []
  | Some entries => sort_names (filter PyStr.ends_with_pdf (map fst entries))
  end.

Fixpoint lookup_file (name : string) (entries : list (string * pdf_file))
  : option pdf_file :=
  match entries with
  | [] => None
  | (n, file) :: rest =>
      if String.eqb n name then Some file else lookup_file name rest
  end.

Definition newline : string := String (ascii_of_nat 10) "".

Definition page_texts (pages : list (option string)) : list string :=
  flat_map (fun p => match p with Some t => [t] | None => [] end) pages.

(** [extract_text_from_pdf_path(os.path.join(PDF_FOLDER, pdf))]: a
    missing file and a file that does not open give the empty text;
    the loop over the pages is outside any [try], so what it raises
    leaves the function. *)
Definition extract_text_from_pdf_path (f : folder) (pdf : string)
  : result string :=
  match f with
  | None => Ok ""
  | Some entries =>
      match lookup_file pdf entries with
      | None => Ok ""
      | Some Unreadable => Ok ""
      | Some Locked => Raise document_locked
      | Some (Pages pages) => Ok (String.concat newline (page_texts pages))
      end
  end.

(** ** Scores *)

Definition score : Type := Q.

(** [a < b] on scores. *)
Definition score_lt (a b : score) : bool := negb (Qle_bool b a).

(** [max(a, b)] of Python: [b] only when it is strictly greater. *)
Definition py_max (a b : score) : score := if score_lt a b then b else a.

Definition total (xs : list score) : score := fold_right Qplus 0%Q xs.

(** [float(np.mean(xs)) if xs else 0.0], for [mean] the float mean
    that [np.mean] computes on a non-empty list. *)
Definition mean_or_zero (mean : list score -> score) (xs : list score)
  : score :=
  match xs with
  | [] => 0%Q
  | _ => mean xs
  end.

(** ** The vectorizer's vocabulary *)

(** [TfidfVectorizer()] tokenizes with [(?u)\b\w\w+\b]: a document has
    a token exactly when two word characters stand side by side. *)
Fixpoint has_token (s : string) : bool :=
  match s with
  | "" => false
  | String c s' =>
      match s' with
      | "" => false
      | String d _ => (PyStr.isword c && PyStr.isword d) || has_token s'
      end
  end.

Definition has_vocabulary (docs : list string) : bool := existsb has_token docs.

Definition empty_vocabulary : exn :=
  ValueError "empty vocabulary; perhaps the documents only contain stop words".

(** ** The generation and similarity services *)

Record message := Message { role : string; content : string }.

(** One call of [client.chat.completions.create]: an exception with its
    text, or a response with the contents of its choices. *)
Inductive completion :=
  | Failure (err : string)
  | Completion (choices : list string).

(** A Groq client: model and messages to the outcome of the call. *)
Definition client : Type := string -> list message -> completion.

(** What [_get_client] reads: the module global [_groq_client], the key
    of [get_groq_api_key] and the constructor [Groq(api_key=key)], which
    gives no client when the import or the construction raises. *)
Record groq := Groq {
  _groq_client : option client;
  groq_key : string;
  groq_connect : string -> option client
}.

Definition set_client (g : groq) (c : option client) : groq :=
  Groq c (groq_key g) (groq_connect g).

Definition key_missing (key placeholder : string) : bool :=
  String.eqb key "" || String.eqb key placeholder.

(** Returns the client and the updated global. *)
Definition _get_client (g : groq) : option client * groq :=
  match _groq_client g with
  | Some c => (Some c, g)
  | None =>
      if key_missing (groq_key g) "your_groq_api_key_here" then (None, g)
      else
        match groq_connect g (groq_key g) with
        | Some c => (Some c, set_client g (Some c))
        | None => (None, g)
        end
  end.

(** The reply of [_chat_complete]: the ["text"] entry, and the models
    on which [create] was called, in call order. *)
Record reply := Reply { text : string; attempted : list string }.

(** [for m in reversed(messages): if m["role"] == "user": ...]. *)
Fixpoint last_user (rev_messages : list message) : option string :=
  match rev_messages with
  | [] => None
  | m :: rest =>
      if String.eqb (role m) "user" then Some (content m) else last_user rest
  end.

Definition fallback_text (txt : string) : string :=
  PyStr.prefix 800 txt ++ (if (800 <? String.length txt)%nat then "..." else "").

(** [f"{last_error}"]. *)
Definition show_error (last_error : option string) : string :=
  match last_error with
  | None => "None"
  | Some e => e
  end.

(** The loop over the candidate models. *)
Fixpoint try_models (c : client) (messages : list message)
    (models : list string) (last_error : option string)
    (tried : list string) : reply :=
  match models with
  | [] => Reply ("[LLM error: " ++ show_error last_error ++ "]") tried
  | model :: rest =>
      match c model messages with
      | Completion (choice :: _) => Reply choice (tried ++ [model])
      | Completion [] =>
          try_models c messages rest last_error (tried ++ [model])
      | Failure e => try_models c messages rest (Some e) (tried ++ [model])
      end
  end.

Definition chat_with (models : list string) (g : groq)
    (messages : list message) : reply * groq :=
  match _get_client g with
  | (None, g') =>
      (match last_user (rev messages) with
       | Some txt => Reply (fallback_text txt) []
       | None => Reply "[No Groq API key configured]" []
       end, g')
  | (Some c, g') => (try_models c messages models None [], g')
  end.

Definition _chat_complete : groq -> list message -> reply * groq :=
  chat_with MODEL_PRIORITY.

(** The similarity service of the re-ranker: the key of
    [get_api_ninjas_key], and per (query, chunk) the ["similarity"] of
    an ok response, [None] for a response that is not ok or a call that
    raises. *)
Record ninjas := Ninjas {
  ninjas_key : string;
  ninjas_post : string -> string -> option score
}.

Fixpoint insert_scored (x : score * string) (l : list (score * string))
  : list (score * string) :=
  match l with
  | [] => [x]
  | y :: l' =>
      if Qle_bool (fst y) (fst x) then x :: l else y :: insert_scored x l'
  end.

(** [scored.sort(key=lambda x: x[0], reverse=True)]: descending and
    stable. *)
Definition sort_scored (l : list (score * string)) : list (score * string) :=
  fold_right insert_scored [] l.

Definition _api_ninjas_refine (n : ninjas) (query : string)
    (chunks : list string) : list string :=
  if key_missing (ninjas_key n) "your_api_ninjas_key_here" then chunks
  else
    let scored :=
      map (fun c =>
             (match ninjas_post n query c with
              | Some sim => sim
              | None => 0%Q
              end, c)) chunks in
    map snd (sort_scored scored).

(** ** The ranker and the orchestrators *)

(** The loop variables [best_pdf], [best_score], [best_chunks]. *)
Record best := Best {
  best_pdf : option string;
  best_score : score;
  best_chunks : list string
}.

Definition no_best : best := Best None (-1 # 1)%Q [].

(** [best_pdf or ""]. *)
Definition pdf_or_empty (p : option string) : string :=
  match p with
  | Some name => name
  | None => ""
  end.

Section Ranker.

(** The library calls of the ranker.  [cosine query chunks c] is
    the entry for chunk [c] of
    [cosine_similarity(vec.transform([query]), vec.transform(chunks))]
    with [vec] fitted on [[query] + chunks]; [argsort] is
    [np.argsort]; [mean] is [np.mean] with its float rounding. *)
Variable cosine : string -> list string -> string -> score.
Variable argsort : list score -> list nat.
Variable mean : list score -> score.

(** Lines 190-191: [fit] raises on an empty vocabulary. *)
Definition similarities (query : string) (chunks : list string)
  : result (list score) :=
  if has_vocabulary (query :: chunks)
  then Ok (map (cosine query chunks) chunks)
  else Raise empty_vocabulary.

(** [np.argsort(sims)[::-1][:TOP_K_CHUNKS_FOR_QA]]. *)
Definition top_indices (sims : list score) : list nat :=
  firstn TOP_K_CHUNKS_FOR_QA (rev (argsort sims)).

Definition top_scores (sims : list score) : list score :=
  map (fun i => nth i sims 0%Q) (top_indices sims).

Definition top_chunks (sims : list score) (chunks : list string)
  : list string :=
  map (fun i => nth i chunks "") (top_indices sims).

(** The body of the loop over [pdf_names]. *)
Definition rank_pdf (f : folder) (query : string) (b : best) (pdf : string)
  : result best :=
  text <- extract_text_from_pdf_path f pdf ;;
  let chunks := chunk_text text MAX_WORDS_PER_CHUNK in
  match chunks with
  | [] => Ok b
  | _ =>
      sims <- similarities query chunks ;;
      let avg_score := mean_or_zero mean (top_scores sims) in
      if score_lt (best_score b) avg_score
      then Ok (Best (Some pdf) avg_score (top_chunks sims chunks))
      else Ok b
  end.

Fixpoint rank_pdfs (f : folder) (query : string) (b : best)
    (pdf_names : list string) : result best :=
  match pdf_names with
  | [] => Ok b
  | pdf :: rest =>
      b' <- rank_pdf f query b pdf ;;
      rank_pdfs f query b' rest
  end.

Definition _tfidf_best_pdf_and_chunks (f : folder) (query : string)
    (pdf_names : list string) : result (string * list string * score) :=
  b <- rank_pdfs f query no_best pdf_names ;;
  Ok (pdf_or_empty (best_pdf b), best_chunks b, py_max (best_score b) 0%Q).

Definition paragraphs (chunks : list string) : string :=
  String.concat (newline ++ newline) chunks.

Definition answer_prompt (best_pdf context question : string) : string :=
  "You are answering a question about the PDF titled '" ++ best_pdf ++ "'."
  ++ newline
  ++ "Use ONLY the context below. If the answer is not present, say so clearly."
  ++ newline ++ newline
  ++ "Context:" ++ newline ++ context ++ newline ++ newline
  ++ "Question: " ++ question ++ newline
  ++ "Answer concisely and, when helpful, quote short snippets in parentheses.".

Definition summary_prompt (best_pdf prompt_text context : string) : string :=
  "Based on the context snippets from the PDF '" ++ best_pdf
  ++ "', write a clean summary with short headings, covering the most relevant points to this request: '"
  ++ prompt_text ++ "'." ++ newline ++ newline
  ++ "Context:" ++ newline ++ context.

Definition answer_question_auto (f : folder) (n : ninjas) (g : groq)
    (question : string) : result (string * string * score) :=
  match discover_pdfs f with
  | [] => Ok ("[No PDFs found in the 'pdfs' folder.]", "", 0%Q)
  | pdfs =>
      '(best_pdf, top_chunks, score) <-
        _tfidf_best_pdf_and_chunks f question pdfs ;;
      if String.eqb best_pdf ""
      then Ok ("[Could not determine a relevant PDF for this question]",
               "", 0%Q)
      else
        let top_chunks := _api_ninjas_refine n question top_chunks in
        let context := paragraphs top_chunks in
        let prompt := answer_prompt best_pdf context question in
        let out :=
          text (fst (_chat_complete g
            [Message "system" "You are a precise academic assistant.";
             Message "user" prompt])) in
        Ok (out, best_pdf, score)
  end.

Definition summarize_on_prompt (f : folder) (g : groq)
    (prompt_text : string) : result (string * string * score) :=
  match discover_pdfs f with
  | [] => Ok ("[No PDFs found in the 'pdfs' folder.]", "", 0%Q)
  | pdfs =>
      '(best_pdf, top_chunks, score) <-
        _tfidf_best_pdf_and_chunks f prompt_text pdfs ;;
      if String.eqb best_pdf ""
      then Ok ("[Could not find relevant information to summarize. Please try again or refer the website]",
               "", 0%Q)
      else
        let context := paragraphs top_chunks in
        let final :=
          text (fst (_chat_complete g
            [Message "system"
               "You create faithful, high-level summaries of academic/policy PDFs.";
             Message "user" (summary_prompt best_pdf prompt_text context)])) in
        Ok (final, best_pdf, score)
  end.

End Ranker.

(** ** Vocabulary of the ranker's specification *)

(** The contract of [np.argsort]: the indices of the array, arranged so
    that the values ascend.  The default kind is not stable, so nothing
    is said about the order of equal values. *)
Definition argsort_ok (argsort : list score -> list nat) : Prop :=
  forall sims,
    Permutation (argsort sims) (seq 0 (List.length sims))
    /\ StronglySorted (fun i j => (nth i sims 0 <= nth j sims 0)%Q)
         (argsort sims).

(** TF-IDF weights are not negative, so neither is a cosine. *)
Definition cosine_nonneg (cosine : string -> list string -> string -> score)
  : Prop :=
  forall query chunks c, (0 <= cosine query chunks c)%Q.

(** The float mean of values that are not negative is not negative:
    no float sum of such values is, nor its quotient by their number. *)
Definition mean_nonneg (mean : list score -> score) : Prop :=
  forall xs, Forall (fun x => (0 <= x)%Q) xs -> (0 <= mean xs)%Q.

Section Documents.

Variable cosine : string -> list string -> string -> score.
Variable argsort : list score -> list nat.
Variable mean : list score -> score.
Variable f : folder.
Variable query : string.

(** The extraction of the document returns (it is not locked). *)
Definition extracts (pdf : string) : Prop :=
  exists text, extract_text_from_pdf_path f pdf = Ok text.

(** The chunks of the document; none when its extraction raises. *)
Definition doc_chunks (pdf : string) : list string :=
  match extract_text_from_pdf_path f pdf with
  | Ok text => chunk_text text MAX_WORDS_PER_CHUNK
  | Raise _ => []
  end.

Definition doc_sims (pdf : string) : list score :=
  map (cosine query (doc_chunks pdf)) (doc_chunks pdf).

(** The aggregate score of a document: the mean of its top scores. *)
Definition doc_score (pdf : string) : score :=
  mean_or_zero mean (top_scores argsort (doc_sims pdf)).

(** The loop variables once [pdf] has become the best document. *)
Definition selected (pdf : string) : best :=
  Best (Some pdf) (doc_score pdf)
    (top_chunks argsort (doc_sims pdf) (doc_chunks pdf)).

(** A document is a candidate when its extraction returns and it
    yields a chunk. *)
Definition candidate (pdf : string) : Prop := doc_chunks pdf <> [].

(** The vectorizer finds a term in the query or in a chunk. *)
Definition fits (pdf : string) : Prop :=
  has_vocabulary (query :: doc_chunks pdf) = true.

End Documents.

(** ** Stand-ins for the library calls, to run the code *)

Fixpoint insert_index (sims : list score) (i : nat) (l : list nat) : list nat :=
  match l with
  | [] => [i]
  | j :: l' =>
      if Qle_bool (nth i sims 0%Q) (nth j sims 0%Q) then i :: l
      else j :: insert_index sims i l'
  end.

(** An ascending, stable argsort: what the insertion sort of NumPy's
    default kind gives on a short array. *)
Definition stable_argsort (sims : list score) : list nat :=
  fold_right (insert_index sims) [] (seq 0 (List.length sims)).

(** The mean on the lists where [np.mean] is exact: a single value,
    equal values 0.0. *)
Definition exact_mean (xs : list score) : score :=
  Qred (total xs / inject_Z (len xs))%Q.

(** The cosine on inputs where the query shares no term with any chunk:
    the dot products are all 0.0. *)
Definition unrelated (query : string) (chunks : list string) (c : string)
  : score := 0%Q.

(** [n] copies of a word, separated by single spaces. *)
Definition copies (n : nat) (w : string) : string := PyStr.join (repeat w n).

(** ** Sample services and documents *)

(** A client on which the first model of [MODEL_PRIORITY] fails and
    the second answers, and one on which every model fails. *)
Definition second_answers : client :=
  fun model _ =>
    if String.eqb model "llama-3.3-70b-versatile"
    then Failure "model_decommissioned"
    else Completion ["Deadlines are March 1."].

Definition always_fails : client :=
  fun model _ => Failure ("rate limit on " ++ model).

Definition no_credential : groq := Groq None "" (fun _ => None).

Definition with_client (c : client) : groq :=
  Groq None "gsk_example" (fun _ => Some c).

Definition two_turns : list message :=
  [Message "system" "You are a precise academic assistant.";
   Message "user" "When are tuition deadlines?"].

(** A document of two chunks: a sentence of 500 words, then one more
    word. *)
Definition long_sentence : string := (copies 500 "alpha" ++ ".")%string.

Definition two_chunk_folder : folder :=
  Some [("guide.pdf", Pages [Some (long_sentence ++ " beta.")%string])].

(** The cosine on a corpus whose chunks either repeat the query (the
    two vectors coincide) or share no term with it. *)
Definition repeats_or_unrelated (query : string) (chunks : list string)
    (c : string) : score :=
  if String.eqb c query then 1%Q else 0%Q.

Definition music_text : string := "The music department offers jazz studies.".

Definition music_only : folder := Some [("music.pdf", Pages [Some music_text])].

Definition music_and_cats : folder :=
  Some [("music.pdf", Pages [Some music_text]);
        ("cats.pdf", Pages [Some "Cats sleep all day."])].

(** A scanned document whose text layer holds the page numbers only. *)
Definition page_numbers : folder :=
  Some [("scan.pdf", Pages [Some "1"; Some "2"; Some "3"])].

(** ** Configuration keys ([config.py]) *)

(** [st.secrets]: unavailable (the import or the lookup raises), or the
    entries of the secrets store. *)
Inductive secrets :=
  | NoSecrets
  | Secrets (entries : list (string * string)).

Fixpoint secret (name : string) (entries : list (string * string))
  : option string :=
  match entries with
  | [] => None
  | (n, v) :: rest => if String.eqb n name then Some v else secret name rest
  end.

(** [os.getenv(name) or default]. *)
Definition getenv_or (value : option string) (default : string) : string :=
  match value with
  | Some v => if String.eqb v "" then default else v
  | None => default
  end.

(** The shared body of [get_groq_api_key] and [get_api_ninjas_key]:
    [key = os.getenv(name) or default], then
    [key = st.secrets.get(name, key)] unless that raises. *)
Definition read_key (name default : string) (environ : string -> option string)
    (s : secrets) : string :=
  let key := getenv_or (environ name) default in
  match s with
  | NoSecrets => key
  | Secrets entries =>
      match secret name entries with
      | Some v => v
      | None => key
      end
  end.

(** The inline keys [DEFAULT_GROQ_API_KEY] and [DEFAULT_API_NINJAS_KEY]
    are taken as the argument [default]. *)
Definition get_groq_api_key (default : string) :
  (string -> option string) -> secrets -> string :=
  read_key "GROQ_API_KEY" default.

Definition get_api_ninjas_key (default : string) :
  (string -> option string) -> secrets -> string :=
  read_key "API_NINJAS_KEY" default.

(** ** Summarizing a long text *)

(** The user turn of a section summary.  The dash of ["3-6"] in the
    source is U+2013, a code point above 255: it is the character
    [dash] here, whatever it is. *)
Definition section_prompt (dash : ascii) (c : string) : string :=
  "Summarize this section in 3" ++ String dash "6 bullet points."
  ++ newline ++ newline ++ c.

Definition unify_prompt (combined : string) : string :=
  "Unify and deduplicate the notes below into a single coherent summary with short headings if useful."
  ++ newline ++ newline ++ combined.

(** The loop over the chunks: the partial summaries, and the client
    global after the calls. *)
Fixpoint summarize_sections (dash : ascii) (g : groq) (chunks : list string)
  : list string * groq :=
  match chunks with
  | [] => ([], g)
  | c :: rest =>
      let '(r, g1) :=
        _chat_complete g
          [Message "system" "You are a concise academic summarizer.";
           Message "user" (section_prompt dash c)] in
      let '(partials, g2) := summarize_sections dash g1 rest in
      (text r :: partials, g2)
  end.

Definition summarize_text_long (dash : ascii) (g : groq) (txt : string)
  : string * groq :=
  match chunk_text txt MAX_WORDS_PER_CHUNK with
  | [] => ("", g)
  | chunks =>
      let '(partials, g1) := summarize_sections dash g chunks in
      let combined := String.concat (newline ++ newline) partials in
      let '(r, g2) :=
        _chat_complete g1
          [Message "system" "You write clean, faithful, non-redundant summaries.";
           Message "user" (unify_prompt combined)] in
      (text r, g2)
  end.

(** ** Vocabulary of the further properties *)

(** The last character of a string is one of [. ! ?]. *)
Definition ends_with_terminator (s : string) : bool :=
  match PyStr.rev_onto "" s with
  | String c _ => PyStr.is_terminator c
  | "" => false
  end.

Definition str_le (a b : string) : Prop := str_leb a b = true.

(** The document is in the folder and is a locked file. *)
Definition is_locked (f : folder) (pdf : string) : bool :=
  match f with
  | None => false
  | Some entries =>
      match lookup_file pdf entries with
      | Some Locked => true
      | _ => false
      end
  end.

(** The words of the pages of a document that open and give text. *)
Definition page_words (f : folder) (pdf : string) : list string :=
  match f with
  | None => []
  | Some entries =>
      match lookup_file pdf entries with
      | Some (Pages pages) => List.concat (map PyStr.split (page_texts pages))
      | _ => []
      end
  end.

(** The similarity the re-ranker sorts a chunk by. *)
Definition refine_key (n : ninjas) (query c : string) : score :=
  match ninjas_post n query c with
  | Some sim => sim
  | None => 0%Q
  end.

(** The order [scored.sort] leaves the pairs in, and the pairs of one
    similarity. *)
Definition by_key_desc (a b : score * string) : Prop := (fst b <= fst a)%Q.

Definition same_key (s : score) (p : score * string) : bool :=
  Qeq_bool (fst p) s.

(** A client whose responses carry no choice. *)
Definition no_choices : client := fun _ _ => Completion [].

(** A similarity service that ranks by the chunk's first letter being
    ["C"], and one whose calls all fail. *)
Definition likes_c : ninjas :=
  Ninjas "key"
    (fun _ c => match c with
                | String "C" _ => Some (9 # 10)%Q
                | _ => Some (1 # 10)%Q
                end).

Definition all_calls_fail : ninjas := Ninjas "key" (fun _ _ => None).

(** * Properties *)

Example chunk_text_ex1 :
  chunk_text "Tuition deadlines are March 1.  Fees are due April 1." 6
  = ["Tuition deadlines are March 1."; "Fees are due April 1."].
Proof. reflexivity. Qed.

Example chunk_text_ex2 :
  chunk_text "  One two three four. Five! Six?   Seven eight.  " 3
  = ["One two three four."; "Five! Six?"; "Seven eight."].
Proof. reflexivity. Qed.

Example sentences_ex :
  _split_into_sentences "a. . b" = ["a."; "."; "b"].
Proof. reflexivity. Qed.

Example sentences_empty : _split_into_sentences "   " = [""].
Proof. reflexivity. Qed.

Example chunk_text_blank : chunk_text "   " 5 = [].
Proof. reflexivity. Qed.

Example discover_pdfs_ex :
  discover_pdfs (Some [("b.PDF", Unreadable); ("notes.txt", Unreadable);
                       ("a.pdf", Pages []); ("pdf", Unreadable)])
  = ["a.pdf"; "b.PDF"].
Proof. reflexivity. Qed.

Example locked_pdf_raises :
  extract_text_from_pdf_path (Some [("exam.pdf", Locked)]) "exam.pdf"
  = Raise document_locked
  /\ answer_question_auto unrelated stable_argsort exact_mean
       (Some [("exam.pdf", Locked)]) all_calls_fail no_credential "tuition"
     = Raise document_locked.
Proof. split; reflexivity. Qed.

Example has_token_ex :
  (has_token "1 2 3", has_token "?", has_token "a b cd") = (false, false, true).
Proof. reflexivity. Qed.

Example refine_ex :
  _api_ninjas_refine
    (Ninjas "key" (fun _ c => if String.eqb c "b" then Some (1 # 2)%Q else None))
    "q" ["a"; "b"; "c"]
  = ["b"; "a"; "c"].
Proof. reflexivity. Qed.

(** ** Strings *)

Lemma append_assoc (a b c : string) :
  ((a ++ b) ++ c = a ++ (b ++ c))%string.
Proof. induction a as [|x a IH]; simpl; [reflexivity | now rewrite IH]. Qed.

Lemma append_empty_r (a : string) : (a ++ "")%string = a.
Proof. induction a as [|x a IH]; simpl; [reflexivity | now rewrite IH]. Qed.

Lemma snoc_append (cur : string) (c : ascii) (s : string) :
  (PyStr.snoc cur c ++ s)%string = (cur ++ String c s)%string.
Proof. unfold PyStr.snoc. now rewrite append_assoc. Qed.

Lemma words_from_empty (cur : string) : PyStr.words_from cur "" = PyStr.flush cur.
Proof. reflexivity. Qed.

(** A space inside the text ends the word being read. *)
Lemma words_from_gap (s1 : string) :
  forall cur sp s2, PyStr.isspace sp = true ->
    PyStr.words_from cur (s1 ++ String sp s2)%string
    = PyStr.words_from cur s1 ++ PyStr.split s2.
Proof.
  induction s1 as [|c s1 IH]; intros cur sp s2 Hsp; simpl.
  - now rewrite Hsp.
  - destruct (PyStr.isspace c).
    + rewrite IH by assumption. now rewrite app_assoc.
    + now apply IH.
Qed.

Lemma spacefree_snoc (cur : string) (c : ascii) :
  PyStr.spacefree cur = true -> PyStr.isspace c = false ->
  PyStr.spacefree (PyStr.snoc cur c) = true.
Proof.
  induction cur as [|x cur IH]; simpl; intros H Hc.
  - now rewrite Hc.
  - apply andb_true_iff in H as [Hx H]. rewrite Hx. simpl. now apply IH.
Qed.

Lemma snoc_not_empty (cur : string) (c : ascii) : PyStr.snoc cur c <> "".
Proof. destruct cur; discriminate. Qed.

(** Reading a run without spaces only extends the word being read. *)
Lemma words_from_run (w : string) :
  forall cur s, PyStr.spacefree w = true ->
    PyStr.words_from cur (w ++ s)%string = PyStr.words_from (cur ++ w)%string s.
Proof.
  induction w as [|c w IH]; intros cur s H; simpl.
  - now rewrite append_empty_r.
  - simpl in H. apply andb_true_iff in H as [Hc H].
    apply negb_true_iff in Hc. rewrite Hc.
    rewrite IH by assumption. now rewrite snoc_append.
Qed.

Lemma split_word (w : string) : PyStr.is_word w -> PyStr.split w = [w].
Proof.
  intros [Hne Hsf]. unfold PyStr.split.
  rewrite <- (append_empty_r w) at 1.
  rewrite words_from_run by assumption. simpl.
  destruct w; [contradiction | reflexivity].
Qed.

Lemma flush_is_word (cur : string) :
  PyStr.spacefree cur = true -> Forall PyStr.is_word (PyStr.flush cur).
Proof.
  intros H. destruct cur; simpl; constructor; [|constructor].
  split; [discriminate | exact H].
Qed.

Lemma words_from_are_words (s : string) :
  forall cur, PyStr.spacefree cur = true ->
    Forall PyStr.is_word (PyStr.words_from cur s).
Proof.
  induction s as [|c s IH]; intros cur H; simpl.
  - now apply flush_is_word.
  - destruct (PyStr.isspace c) eqn:Hc.
    + apply Forall_app. split; [now apply flush_is_word | now apply IH].
    + apply IH. now apply spacefree_snoc.
Qed.

Lemma split_are_words (s : string) : Forall PyStr.is_word (PyStr.split s).
Proof. now apply words_from_are_words. Qed.

(** [" ".join(ws).split() == ws] for a list of words. *)
Lemma split_join (ws : list string) :
  Forall PyStr.is_word ws -> PyStr.split (PyStr.join ws) = ws.
Proof.
  induction ws as [|w ws IH]; intros H; [reflexivity|].
  inversion H as [|? ? Hw Hws]; subst.
  destruct ws as [|w' ws].
  - now apply split_word.
  - change (PyStr.join (w :: w' :: ws))
      with (w ++ String " " (PyStr.join (w' :: ws)))%string.
    unfold PyStr.split. rewrite words_from_gap by reflexivity.
    fold (PyStr.split w). rewrite split_word by assumption.
    simpl. f_equal. now apply IH.
Qed.

Lemma split_lstrip (s : string) : PyStr.split (PyStr.lstrip s) = PyStr.split s.
Proof.
  induction s as [|c s IH]; simpl; [reflexivity|].
  destruct (PyStr.isspace c) eqn:Hc; [|reflexivity].
  rewrite IH. unfold PyStr.split at 2. simpl. now rewrite Hc.
Qed.

Lemma words_from_rstrip (s : string) :
  forall cur, PyStr.words_from cur (PyStr.rstrip s) = PyStr.words_from cur s.
Proof.
  induction s as [|c s IH]; intros cur; [reflexivity|].
  simpl. destruct (PyStr.rstrip s) as [|r0 r] eqn:Hr.
  - destruct (PyStr.isspace c) eqn:Hc; simpl; rewrite ?Hc.
    + rewrite <- IH. simpl. now rewrite app_nil_r.
    + now rewrite <- IH.
  - simpl. destruct (PyStr.isspace c) eqn:Hc.
    + f_equal. rewrite <- IH. reflexivity.
    + rewrite <- IH. reflexivity.
Qed.

Lemma split_strip (s : string) : PyStr.split (PyStr.strip s) = PyStr.split s.
Proof.
  unfold PyStr.strip, PyStr.split. rewrite words_from_rstrip.
  apply split_lstrip.
Qed.

(** ** Sentences *)

(** Splitting into sentences cuts at spaces only: the words of the
    pieces are the words of the text. *)
Lemma scan_next_not_gap (c : ascii) (cur : string) :
  scan_next c = InGap -> cur = "".
Proof. unfold scan_next. destruct (PyStr.is_terminator c); discriminate. Qed.

Lemma re_split_from_words (s : string) :
  forall st cur, (st = InGap -> cur = "") ->
    List.concat (map PyStr.split (re_split_from st cur s))
    = PyStr.split (cur ++ s)%string.
Proof.
  induction s as [|c s IH]; intros st cur Hgap; simpl.
  - now rewrite append_empty_r, app_nil_r.
  - destruct st.
    + rewrite IH by apply scan_next_not_gap. now rewrite snoc_append.
    + destruct (PyStr.isspace c) eqn:Hc.
      * simpl. rewrite IH by reflexivity. simpl.
        unfold PyStr.split at 3. now rewrite words_from_gap.
      * rewrite IH by apply scan_next_not_gap. now rewrite snoc_append.
    + rewrite (Hgap eq_refl). destruct (PyStr.isspace c) eqn:Hc.
      * rewrite IH by reflexivity. simpl.
        unfold PyStr.split at 2. simpl. now rewrite Hc.
      * rewrite IH by apply scan_next_not_gap. now rewrite snoc_append.
Qed.

Lemma sentences_words (text : string) :
  List.concat (map PyStr.split (_split_into_sentences text)) = PyStr.split text.
Proof.
  unfold _split_into_sentences.
  rewrite re_split_from_words by discriminate. simpl. apply split_strip.
Qed.

(** ** The chunker *)

Lemma len_app {A} (a b : list A) : len (a ++ b) = (len a + len b)%Z.
Proof. unfold len. rewrite length_app. lia. Qed.

Lemma proper_concat_nil (g : list (list string)) :
  Forall proper_sentence g -> List.concat g = [] -> g = [].
Proof.
  intros H E. destruct g as [|ws g]; [reflexivity|].
  inversion H as [|? ? [Hne _] _]; subst. simpl in E.
  apply app_eq_nil in E as [E _]. contradiction.
Qed.

Lemma close_chunk_groups (groups g : list (list (list string))) (L : Z)
    (open : list (list string)) :
  Forall proper_sentence open ->
  Forall (good_group L) groups ->
  (open = [] \/ within_limit L open) ->
  exists closed,
    close_chunk (map group_chunk groups) (List.concat open)
    = map group_chunk closed
    /\ List.concat closed = List.concat groups ++ open
    /\ Forall (good_group L) closed.
Proof.
  intros Hopen Hgroups Hlim. unfold close_chunk.
  destruct (List.concat open) as [|w ws] eqn:E.
  - exists groups. apply proper_concat_nil in E; [|assumption]. subst.
    rewrite app_nil_r. auto.
  - exists (groups ++ [open]). rewrite map_app, concat_app. simpl.
    unfold group_chunk at 3. rewrite E, app_nil_r. repeat split.
    apply Forall_app. split; [assumption|]. constructor; [|constructor].
    destruct Hlim as [->|Hlim]; [discriminate|].
    repeat split; [intros ->; discriminate | assumption | assumption].
Qed.

Lemma chunk_step_inv (L : Z) (done : list (list string)) (st : chunker)
    (s : string) :
  chunker_inv L done st ->
  chunker_inv L (done ++ sentence_words [s]) (chunk_step L st s).
Proof.
  intros (groups & g & -> & Hdone & Hgroups & Hg & Hlim).
  unfold chunk_step, sentence_words. simpl.
  pose proof (split_are_words s) as Hwords.
  destruct (PyStr.split s) as [|w ws] eqn:Hs; simpl.
  - rewrite app_nil_r. exists groups, g. auto.
  - set (words := w :: ws) in *.
    assert (Hproper : proper_sentence words) by (split; [discriminate | exact Hwords]).
    destruct (len (List.concat g) + len words >? L)%Z eqn:Hcmp.
    + destruct (close_chunk_groups groups groups L g Hg Hgroups Hlim)
        as (closed & Hclose & Hcat & Hclosed).
      exists closed, [words]. simpl. rewrite app_nil_r, Hclose. repeat split.
      * rewrite Hcat, Hdone. reflexivity.
      * assumption.
      * constructor; [assumption | constructor].
      * right. unfold within_limit. simpl. rewrite app_nil_r.
        destruct (Z_le_gt_dec (len words) L) as [Hle|Hgt]; [now left|].
        right. exists words. split; [reflexivity | lia].
    + exists groups, (g ++ [words]).
      rewrite concat_app. simpl. rewrite app_nil_r, len_app. repeat split.
      * rewrite app_assoc, Hdone. reflexivity.
      * assumption.
      * apply Forall_app. split; [assumption | constructor; [assumption | constructor]].
      * right. left. rewrite concat_app. simpl. rewrite app_nil_r, len_app.
        rewrite Z.gtb_ltb in Hcmp. apply Z.ltb_ge in Hcmp. exact Hcmp.
Qed.

Lemma sentence_words_app (a b : list string) :
  sentence_words (a ++ b) = sentence_words a ++ sentence_words b.
Proof. unfold sentence_words. now rewrite map_app, filter_app. Qed.

Lemma chunk_fold_inv (L : Z) (sentences : list string) :
  forall done st,
    chunker_inv L done st ->
    chunker_inv L (done ++ sentence_words sentences)
      (fold_left (chunk_step L) sentences st).
Proof.
  induction sentences as [|s rest IH]; intros done st H; simpl.
  - unfold sentence_words. simpl. now rewrite app_nil_r.
  - change (s :: rest) with ([s] ++ rest).
    rewrite sentence_words_app, app_assoc.
    apply IH. now apply chunk_step_inv.
Qed.

(** The chunks are the joined word groups of a cut of the sentence list
    into runs of consecutive sentences, each run a good group. *)
Lemma chunk_text_groups (text : string) (L : Z) :
  exists groups,
    chunk_text text L = map group_chunk groups
    /\ List.concat groups = sentence_words (_split_into_sentences text)
    /\ Forall (good_group L) groups.
Proof.
  unfold chunk_text.
  assert (H0 : chunker_inv L [] ([], [], 0%Z)).
  { exists [], []. simpl. repeat split; auto. }
  apply (chunk_fold_inv L (_split_into_sentences text)) in H0.
  destruct H0 as (groups & g & -> & Hdone & Hgroups & Hg & Hlim).
  destruct (close_chunk_groups groups groups L g Hg Hgroups Hlim)
    as (closed & Hclose & Hcat & Hclosed).
  exists closed. rewrite Hclose, Hcat, Hdone. auto.
Qed.

Lemma concat_sentence_words (sentences : list string) :
  List.concat (sentence_words sentences)
  = List.concat (map PyStr.split sentences).
Proof.
  unfold sentence_words.
  induction (map PyStr.split sentences) as [|ws l IH]; [reflexivity|].
  simpl. destruct ws; simpl; now rewrite IH.
Qed.

Lemma proper_concat (g : list (list string)) :
  Forall proper_sentence g -> Forall PyStr.is_word (List.concat g).
Proof.
  induction 1 as [|ws g [_ Hws] _ IH]; simpl; [constructor|].
  apply Forall_app. now split.
Qed.

Lemma group_chunk_words (L : Z) (g : list (list string)) :
  good_group L g -> PyStr.split (group_chunk g) = List.concat g.
Proof.
  intros (_ & Hg & _). unfold group_chunk.
  apply split_join. now apply proper_concat.
Qed.

Lemma concat_concat_groups {A} (groups : list (list (list A))) :
  List.concat (map (@List.concat A) groups) = List.concat (List.concat groups).
Proof.
  induction groups as [|g groups IH]; [reflexivity|].
  simpl. now rewrite concat_app, IH.
Qed.

(** C3: for every text [T] and limit [L > 0], the words of the chunks
    of [chunk_text T L], taken chunk after chunk, are exactly the
    whitespace-separated words of [T], in order. *)
Theorem chunk_text_roundtrip (T : string) (L : Z) :
  (0 < L)%Z -> chunk_words (chunk_text T L) = PyStr.split T.
Proof.
  intros _.
  destruct (chunk_text_groups T L) as (groups & -> & Hcat & Hgood).
  unfold chunk_words. rewrite map_map.
  rewrite (map_ext_in _ (@List.concat string)).
  - rewrite concat_concat_groups, Hcat, concat_sentence_words.
    apply sentences_words.
  - intros g Hin. apply (group_chunk_words L).
    rewrite Forall_forall in Hgood. now apply Hgood.
Qed.

Lemma chunk_text_roundtrip_witness :
  chunk_words (chunk_text "One two three four. Five! Six?   Seven eight.  " 3)
  = PyStr.split "One two three four. Five! Six?   Seven eight.  ".
Proof. apply (chunk_text_roundtrip _ 3). lia. Defined.

(** C4: for every text [T] and limit [L > 0], the chunks of
    [chunk_text T L] are the joined words of consecutive groups of whole
    sentences (no sentence is cut), and every chunk has at most [L]
    words unless its group is a single sentence of more than [L] words. *)
Theorem chunk_text_soft_cap (T : string) (L : Z) :
  (0 < L)%Z ->
  exists groups,
    List.concat groups = sentence_words (_split_into_sentences T)
    /\ chunk_text T L = map group_chunk groups
    /\ Forall (fun g =>
                 PyStr.split (group_chunk g) = List.concat g
                 /\ ((len (PyStr.split (group_chunk g)) <= L)%Z
                     \/ exists ws, g = [ws] /\ (L < len ws)%Z)) groups.
Proof.
  intros _.
  destruct (chunk_text_groups T L) as (groups & Hchunks & Hcat & Hgood).
  exists groups. repeat split; try assumption.
  apply Forall_impl with (2 := Hgood). intros g Hg.
  pose proof (group_chunk_words L g Hg) as Hwords.
  split; [exact Hwords|]. rewrite Hwords.
  destruct Hg as (_ & _ & Hlim). exact Hlim.
Qed.

Lemma chunk_text_soft_cap_witness :
  exists groups,
    List.concat groups
    = sentence_words (_split_into_sentences "One two three four. Five! Six?")
    /\ chunk_text "One two three four. Five! Six?" 3 = map group_chunk groups
    /\ Forall (fun g =>
                 PyStr.split (group_chunk g) = List.concat g
                 /\ ((len (PyStr.split (group_chunk g)) <= 3)%Z
                     \/ exists ws, g = [ws] /\ (3 < len ws)%Z)) groups.
Proof. apply (chunk_text_soft_cap _ 3). lia. Defined.

(** ** The generation client *)

Lemma prefix_short (n : nat) (s : string) :
  (String.length s <= n)%nat -> substring 0 n s = s.
Proof.
  revert n. induction s as [|c s IH]; intros n H.
  - destruct n; reflexivity.
  - destruct n as [|n]; simpl in *; [lia|]. f_equal. apply IH. lia.
Qed.

Lemma prefix_length (n : nat) (s : string) :
  (n <= String.length s)%nat -> String.length (substring 0 n s) = n.
Proof.
  revert n. induction s as [|c s IH]; intros n H.
  - destruct n; simpl in *; [reflexivity | lia].
  - destruct n as [|n]; simpl in *; [reflexivity|]. f_equal. apply IH. lia.
Qed.

Lemma last_user_skips (after : list message) :
  Forall (fun m => role m <> "user") after ->
  forall rest, last_user (rev after ++ rest) = last_user rest.
Proof.
  induction 1 as [|m after Hm _ IH]; intros rest; [reflexivity|].
  simpl. rewrite <- app_assoc, IH. simpl.
  apply String.eqb_neq in Hm. now rewrite Hm.
Qed.

Lemma last_user_rev (before after : list message) (txt : string) :
  Forall (fun m => role m <> "user") after ->
  last_user (rev (before ++ Message "user" txt :: after)) = Some txt.
Proof.
  intros Hafter. rewrite rev_app_distr. simpl. rewrite <- app_assoc.
  now rewrite last_user_skips.
Qed.

(** A list with a user turn splits at its last user turn. *)
Lemma last_user_turn (messages : list message) :
  Exists (fun m => role m = "user") messages ->
  exists before txt after,
    messages = before ++ Message "user" txt :: after
    /\ Forall (fun m => role m <> "user") after.
Proof.
  induction messages as [|m rest IH]; intros H; [inversion H|].
  destruct (Exists_dec (fun m => role m = "user") rest
              (fun m => string_dec (role m) "user")) as [Hrest|Hrest].
  - destruct (IH Hrest) as (before & txt & after & -> & Hafter).
    now exists (m :: before), txt, after.
  - inversion H as [? ? Hm|? ? Hex]; subst; [|contradiction].
    exists [], (content m), rest. split.
    + destruct m as [r c]. simpl in *. now subst.
    + apply Forall_Exists_neg. exact Hrest.
Qed.

(** C6: with no credential configured (and no client built earlier),
    every message list that contains a user turn splits at its last
    user turn, of content [txt], and [_chat_complete] returns [txt]
    itself when it has at most 800 characters, and otherwise its first
    800 characters followed by the marker ["..."]; no model is called. *)
Theorem chat_complete_fallback (g : groq) (messages : list message) :
  _groq_client g = None ->
  key_missing (groq_key g) "your_groq_api_key_here" = true ->
  Exists (fun m => role m = "user") messages ->
  exists before txt after,
    messages = before ++ Message "user" txt :: after
    /\ Forall (fun m => role m <> "user") after
    /\ attempted (fst (_chat_complete g messages)) = []
    /\ ((String.length txt <= 800)%nat ->
        text (fst (_chat_complete g messages)) = txt)
    /\ ((800 < String.length txt)%nat ->
        text (fst (_chat_complete g messages))
        = (PyStr.prefix 800 txt ++ "...")%string
        /\ String.length (PyStr.prefix 800 txt) = 800%nat).
Proof.
  intros Hclient Hkey Huser.
  destruct (last_user_turn messages Huser) as (before & txt & after & -> & Hafter).
  exists before, txt, after. split; [reflexivity|]. split; [assumption|].
  unfold _chat_complete, chat_with, _get_client. rewrite Hclient, Hkey.
  rewrite last_user_rev by assumption. simpl.
  unfold fallback_text, PyStr.prefix. repeat split.
  - intros Hle. apply Nat.ltb_ge in Hle. rewrite Hle.
    apply Nat.ltb_ge in Hle. rewrite prefix_short by assumption.
    apply append_empty_r.
  - apply Nat.ltb_lt in H. now rewrite H.
  - apply prefix_length. lia.
Qed.

Lemma chat_complete_fallback_witness :
  exists before txt after,
    two_turns = before ++ Message "user" txt :: after
    /\ Forall (fun m => role m <> "user") after
    /\ attempted (fst (_chat_complete no_credential two_turns)) = []
    /\ ((String.length txt <= 800)%nat ->
        text (fst (_chat_complete no_credential two_turns)) = txt)
    /\ ((800 < String.length txt)%nat ->
        text (fst (_chat_complete no_credential two_turns))
        = (PyStr.prefix 800 txt ++ "...")%string
        /\ String.length (PyStr.prefix 800 txt) = 800%nat).
Proof.
  apply (chat_complete_fallback no_credential two_turns);
    [reflexivity | reflexivity |].
  apply Exists_cons_tl, Exists_cons_hd. reflexivity.
Defined.

Lemma try_models_first_success (c : client) (messages : list message)
    (failed : list string) :
  Forall (fun m => exists e, c m messages = Failure e) failed ->
  forall m rest choice more last_error tried,
    c m messages = Completion (choice :: more) ->
    try_models c messages (failed ++ m :: rest) last_error tried
    = Reply choice (tried ++ failed ++ [m]).
Proof.
  induction 1 as [|f failed [e He] _ IH];
    intros m rest choice more last_error tried Hm; simpl.
  - now rewrite Hm.
  - rewrite He. rewrite (IH _ _ _ _ _ _ Hm). now rewrite <- app_assoc.
Qed.

Lemma try_models_all_fail (c : client) (messages : list message)
    (failed : list string) :
  Forall (fun m => exists e, c m messages = Failure e) failed ->
  forall m e last_error tried,
    c m messages = Failure e ->
    try_models c messages (failed ++ [m]) last_error tried
    = Reply ("[LLM error: " ++ e ++ "]") (tried ++ failed ++ [m]).
Proof.
  induction 1 as [|f failed [e' He'] _ IH];
    intros m e last_error tried Hm; simpl.
  - now rewrite Hm.
  - rewrite He'. rewrite (IH _ _ _ _ Hm). now rewrite <- app_assoc.
Qed.

(** C7: with a client available, if the calls on the models [failed]
    all raise, then (a) when the next model [m] answers with a non-empty
    choice list, the reply is the content of its first choice and the
    models tried are [failed ++ [m]] only, whatever candidates follow;
    (b) when [m] is the last candidate and raises with message [e], the
    reply is the text ["[LLM error: e]"].  The function returns a reply
    in both cases. *)
Theorem chat_complete_retry (g g' : groq) (c : client)
    (messages : list message) (failed : list string) :
  _get_client g = (Some c, g') ->
  Forall (fun m => exists e, c m messages = Failure e) failed ->
  (forall m rest choice more,
      c m messages = Completion (choice :: more) ->
      fst (chat_with (failed ++ m :: rest) g messages)
      = Reply choice (failed ++ [m]))
  /\ (forall m e,
      c m messages = Failure e ->
      fst (chat_with (failed ++ [m]) g messages)
      = Reply ("[LLM error: " ++ e ++ "]") (failed ++ [m])).
Proof.
  intros Hc Hfailed. unfold chat_with. rewrite Hc. simpl. split.
  - intros m rest choice more Hm.
    now rewrite (try_models_first_success c messages failed Hfailed _ _ _ _ _ _ Hm).
  - intros m e Hm.
    now rewrite (try_models_all_fail c messages failed Hfailed _ _ _ _ Hm).
Qed.

Lemma chat_complete_retry_witness :
  fst (_chat_complete (with_client second_answers) two_turns)
  = Reply "Deadlines are March 1." MODEL_PRIORITY
  /\ fst (_chat_complete (with_client always_fails) two_turns)
     = Reply "[LLM error: rate limit on llama-3.1-8b-instant]" MODEL_PRIORITY.
Proof.
  split.
  - refine (proj1 (chat_complete_retry (with_client second_answers) _
                     second_answers two_turns ["llama-3.3-70b-versatile"]
                     eq_refl _) "llama-3.1-8b-instant" [] _ [] eq_refl).
    constructor; [|constructor]. now exists "model_decommissioned".
  - refine (proj2 (chat_complete_retry (with_client always_fails) _
                     always_fails two_turns ["llama-3.3-70b-versatile"]
                     eq_refl _) "llama-3.1-8b-instant" _ eq_refl).
    constructor; [|constructor].
    now exists "rate limit on llama-3.3-70b-versatile".
Defined.

(** ** The re-ranker *)

Lemma insert_scored_perm (x : score * string) (l : list (score * string)) :
  Permutation (insert_scored x l) (x :: l).
Proof.
  induction l as [|y l IH]; simpl; [apply Permutation_refl|].
  destruct (Qle_bool (fst y) (fst x)); [apply Permutation_refl|].
  eapply Permutation_trans; [apply perm_skip, IH | apply perm_swap].
Qed.

Lemma sort_scored_perm (l : list (score * string)) :
  Permutation (sort_scored l) l.
Proof.
  induction l as [|x l IH]; simpl; [constructor|].
  eapply Permutation_trans; [apply insert_scored_perm | now apply perm_skip].
Qed.

Lemma api_ninjas_refine_lists (n : ninjas) (query : string)
    (chunks : list string) :
  Permutation (_api_ninjas_refine n query chunks) chunks.
Proof.
  unfold _api_ninjas_refine.
  destruct (key_missing (ninjas_key n) "your_api_ninjas_key_here");
    [apply Permutation_refl|].
  eapply Permutation_trans; [apply Permutation_map, sort_scored_perm|].
  rewrite map_map. simpl. rewrite map_id. apply Permutation_refl.
Qed.

(** C8: for every query, key, service behaviour and chunk list, the
    output of [_api_ninjas_refine] is a permutation of its input. *)
Theorem api_ninjas_refine_permutation (n : ninjas) (query : string)
    (chunks : list string) :
  Permutation (_api_ninjas_refine n query chunks) chunks.
Proof. apply api_ninjas_refine_lists. Qed.

(** ** Sorted lists *)

Section SortedFacts.

Context {A : Type} (R : A -> A -> Prop).

Lemma StronglySorted_app (l1 l2 : list A) :
  StronglySorted R l1 -> StronglySorted R l2 ->
  (forall x y, In x l1 -> In y l2 -> R x y) ->
  StronglySorted R (l1 ++ l2).
Proof.
  induction 1 as [|a l1 H1 IH Ha]; intros H2 Hcross; simpl; [assumption|].
  constructor.
  - apply IH; [assumption|]. intros x y Hx Hy. apply Hcross; [now right | assumption].
  - apply Forall_app. split; [assumption|].
    apply Forall_forall. intros y Hy. apply Hcross; [now left | assumption].
Qed.

Lemma StronglySorted_app_inv (l1 l2 : list A) :
  StronglySorted R (l1 ++ l2) ->
  StronglySorted R l1 /\ StronglySorted R l2
  /\ (forall x y, In x l1 -> In y l2 -> R x y).
Proof.
  induction l1 as [|a l1 IH]; simpl; intros H.
  - repeat split; [constructor | assumption | intros x y []].
  - apply StronglySorted_inv in H as [H Ha].
    destruct (IH H) as (H1 & H2 & Hcross).
    apply Forall_app in Ha as [Ha1 Ha2]. repeat split.
    + now constructor.
    + assumption.
    + intros x y [<-|Hx] Hy; [|now apply Hcross].
      rewrite Forall_forall in Ha2. now apply Ha2.
Qed.

End SortedFacts.

Lemma StronglySorted_rev {A} (R : A -> A -> Prop) (l : list A) :
  StronglySorted R l -> StronglySorted (fun x y => R y x) (rev l).
Proof.
  induction 1 as [|a l H IH Ha]; simpl; [constructor|].
  apply StronglySorted_app; [assumption | repeat constructor |].
  intros x y Hx [<-|[]]. apply in_rev in Hx.
  rewrite Forall_forall in Ha. now apply Ha.
Qed.

(** ** The ranker *)

Lemma score_lt_iff (a b : score) : score_lt a b = true <-> (a < b)%Q.
Proof.
  unfold score_lt. rewrite negb_true_iff. split; intros H.
  - apply Qnot_le_lt. intros Hle. apply Qle_bool_iff in Hle. congruence.
  - destruct (Qle_bool b a) eqn:E; [|reflexivity].
    apply Qle_bool_iff in E. now apply Qle_not_lt in E.
Qed.

Lemma score_lt_false (a b : score) : score_lt a b = false <-> (b <= a)%Q.
Proof.
  unfold score_lt. rewrite negb_false_iff. apply Qle_bool_iff.
Qed.

Section RankerFacts.

Variable cosine : string -> list string -> string -> score.
Variable argsort : list score -> list nat.
Variable mean : list score -> score.
Variable f : folder.
Variable query : string.

Let chunks_of := doc_chunks f.
Let score_of := doc_score cosine argsort mean f query.
Let chosen := selected cosine argsort mean f query.
Let rank := rank_pdfs cosine argsort mean f query.

(** The loop body, by cases on the document. *)
Lemma rank_pdf_cases (b : best) (pdf : string) :
  (exists e, extract_text_from_pdf_path f pdf = Raise e
             /\ rank_pdf cosine argsort mean f query b pdf = Raise e)
  \/ (extracts f pdf /\ chunks_of pdf = []
      /\ rank_pdf cosine argsort mean f query b pdf = Ok b)
  \/ (candidate f pdf /\ ~ fits f query pdf
      /\ rank_pdf cosine argsort mean f query b pdf = Raise empty_vocabulary)
  \/ (candidate f pdf /\ fits f query pdf
      /\ (best_score b < score_of pdf)%Q
      /\ rank_pdf cosine argsort mean f query b pdf = Ok (chosen pdf))
  \/ (candidate f pdf /\ fits f query pdf
      /\ (score_of pdf <= best_score b)%Q
      /\ rank_pdf cosine argsort mean f query b pdf = Ok b).
Proof.
  unfold rank_pdf, candidate, fits, extracts, chunks_of, score_of, chosen,
    selected, doc_score, doc_sims, doc_chunks, similarities.
  destruct (extract_text_from_pdf_path f pdf) as [text|e]; cbn [bind];
    [|left; now exists e].
  right.
  destruct (chunk_text text MAX_WORDS_PER_CHUNK)
    as [|c cs] eqn:Hchunks; [left; repeat split; now exists text|].
  right.
  destruct (has_vocabulary (query :: c :: cs)) eqn:Hvoc; simpl.
  - right.
    destruct (score_lt (best_score b)
                (mean_or_zero mean (top_scores argsort
                   (cosine query (c :: cs) c :: map (cosine query (c :: cs)) cs))))
      eqn:Hlt.
    + left. apply score_lt_iff in Hlt. repeat split; try discriminate; assumption.
    + right. apply score_lt_false in Hlt. repeat split; try discriminate; assumption.
  - left. repeat split; try discriminate.
Qed.

Lemma candidate_extracts (pdf : string) : candidate f pdf -> extracts f pdf.
Proof.
  unfold candidate, extracts, doc_chunks.
  destruct (extract_text_from_pdf_path f pdf) as [text|e];
    [now exists text | intros H; now contradiction H].
Qed.

(** What a completed run of the loop leaves behind: the best document
    it started with, or the earliest document of the list that attains
    the maximum score, the maximum being above the starting score. *)
Lemma rank_pdfs_inv (l : list string) :
  forall b b', rank b l = Ok b' ->
    (b' = b
     /\ forall q, In q l -> candidate f q -> (score_of q <= best_score b)%Q)
    \/ (exists before p after,
          l = before ++ p :: after
          /\ candidate f p /\ b' = chosen p
          /\ (best_score b < score_of p)%Q
          /\ (forall q, In q before -> candidate f q ->
                (score_of q < score_of p)%Q)
          /\ (forall q, In q after -> candidate f q ->
                (score_of q <= score_of p)%Q)).
Proof.
  induction l as [|pdf rest IH]; intros b b' H.
  - left. split; [now inversion H | intros q []].
  - unfold rank in H. cbn [rank_pdfs] in H.
    destruct (rank_pdf_cases b pdf)
      as [(e & _ & E) | [(_ & Hno & E) | [(Hc & Hfit & E)
         | [(Hc & Hfit & Hlt & E) | (Hc & Hfit & Hle & E)]]]];
      rewrite E in H; cbn [bind] in H.
    + discriminate.
    + destruct (IH _ _ H) as [[-> Hall] | (before & p & after & -> & Hp & -> & Hlt & Hb & Ha)].
      * left. split; [reflexivity|]. intros q [<-|Hin] Hq; [contradiction | auto].
      * right. exists (pdf :: before), p, after. repeat split; auto.
        intros q [<-|Hin] Hq; [contradiction | auto].
    + discriminate.
    + destruct (IH _ _ H) as [[-> Hall] | (before & p & after & -> & Hp & -> & Hlt' & Hb & Ha)].
      * right. exists [], pdf, rest. repeat split; auto.
        intros q [].
      * right. exists (pdf :: before), p, after. repeat split; auto.
        -- eapply Qlt_trans; [exact Hlt | exact Hlt'].
        -- intros q [<-|Hin] Hq; [exact Hlt' | auto].
    + destruct (IH _ _ H) as [[-> Hall] | (before & p & after & -> & Hp & -> & Hlt & Hb & Ha)].
      * left. split; [reflexivity|]. intros q [<-|Hin] Hq; [exact Hle | auto].
      * right. exists (pdf :: before), p, after. repeat split; auto.
        intros q [<-|Hin] Hq; [|auto].
        eapply Qle_lt_trans; [exact Hle | exact Hlt].
Qed.

(** Whenever the loop completes, every document of the list was
    extracted. *)
Lemma rank_pdfs_extracted (l : list string) :
  forall b b', rank b l = Ok b' -> forall q, In q l -> extracts f q.
Proof.
  induction l as [|pdf rest IH]; intros b b' H q Hq; [destruct Hq|].
  unfold rank in H. cbn [rank_pdfs] in H.
  destruct (rank_pdf_cases b pdf)
    as [(e & _ & E) | [(Hex & _ & E) | [(Hc & _ & E)
       | [(Hc & _ & _ & E) | (Hc & _ & _ & E)]]]];
    rewrite E in H; cbn [bind] in H; try discriminate;
    (destruct Hq as [<-|Hq];
     [try exact Hex; now apply candidate_extracts | now apply (IH _ _ H)]).
Qed.

(** The loop completes when every document is extracted and the
    vectorizer fits every candidate. *)
Lemma rank_pdfs_returns (l : list string) :
  (forall q, In q l -> extracts f q) ->
  (forall q, In q l -> candidate f q -> fits f query q) ->
  forall b, exists b', rank b l = Ok b'.
Proof.
  induction l as [|pdf rest IH]; intros Hex Hfits b.
  - now exists b.
  - unfold rank. cbn [rank_pdfs].
    assert (Hrest : forall q, In q rest -> candidate f q -> fits f query q)
      by (intros q Hin; apply Hfits; now right).
    assert (Hexr : forall q, In q rest -> extracts f q)
      by (intros q Hin; apply Hex; now right).
    destruct (rank_pdf_cases b pdf)
      as [(e & He & E) | [(_ & Hno & E) | [(Hc & Hfit & E)
         | [(Hc & Hfit & Hlt & E) | (Hc & Hfit & Hle & E)]]]];
      rewrite E; cbn [bind]; try (now apply IH).
    + exfalso. destruct (Hex pdf (or_introl eq_refl)) as [text Ht]. congruence.
    + exfalso. apply Hfit, Hfits; [now left | assumption].
Qed.

Lemma rank_pdfs_app (l1 l2 : list string) :
  forall b, rank b (l1 ++ l2) = (b1 <- rank b l1 ;; rank b1 l2).
Proof.
  induction l1 as [|pdf l1 IH]; intros b; [reflexivity|].
  unfold rank. cbn [rank_pdfs app].
  destruct (rank_pdf cosine argsort mean f query b pdf); cbn [bind]; [apply IH | reflexivity].
Qed.

(** Starting the loop from a better document changes nothing when the
    loop ends above that document's score. *)
Lemma rank_pdfs_absorb (l : list string) :
  forall b bd b',
    (best_score b <= best_score bd)%Q ->
    rank b l = Ok b' ->
    (best_score bd < best_score b')%Q ->
    rank bd l = Ok b'.
Proof.
  induction l as [|pdf rest IH]; intros b bd b' Hle H Hlt.
  - inversion H; subst. exfalso.
    apply (Qlt_irrefl (best_score bd)).
    eapply Qlt_le_trans; [exact Hlt | exact Hle].
  - unfold rank in *. cbn [rank_pdfs] in *.
    destruct (rank_pdf_cases b pdf)
      as [(e & He & E) | [(_ & Hno & E) | [(Hc & Hfit & E)
         | [(Hc & Hfit & Hlt1 & E) | (Hc & Hfit & Hle1 & E)]]]];
      rewrite E in H; cbn [bind] in H; try discriminate;
      destruct (rank_pdf_cases bd pdf)
        as [(e' & He' & E') | [(_ & Hno' & E') | [(Hc' & Hfit' & E')
           | [(Hc' & Hfit' & Hlt2 & E') | (Hc' & Hfit' & Hle2 & E')]]]];
      rewrite E'; cbn [bind]; try contradiction;
      try (exfalso; apply Hc; assumption); try (exfalso; apply Hc'; assumption);
      try (exfalso; apply candidate_extracts in Hc; destruct Hc; congruence).
    + exfalso. unfold chunks_of, doc_chunks in Hno. rewrite He' in Hno.
      clear - E E' He'. unfold rank_pdf in E. rewrite He' in E. discriminate.
    + now apply (IH b).
    + exact H.
    + apply (IH (chosen pdf)); auto.
    + exfalso. apply (Qlt_irrefl (score_of pdf)).
      eapply Qle_lt_trans; [exact Hle1|].
      eapply Qle_lt_trans; [exact Hle | exact Hlt2].
    + now apply (IH b).
Qed.

(** The tuple returned by the ranker, read back from the loop. *)
Lemma tfidf_result (pdfs : list string) (p : string) (out : list string)
    (s : score) :
  _tfidf_best_pdf_and_chunks cosine argsort mean f query pdfs = Ok (p, out, s) ->
  (p = "" /\ out = [] /\ s = 0%Q
   /\ rank no_best pdfs = Ok no_best
   /\ forall q, In q pdfs -> candidate f q -> (score_of q <= -1 # 1)%Q)
  \/ (exists before after,
        pdfs = before ++ p :: after
        /\ candidate f p
        /\ rank no_best pdfs = Ok (chosen p)
        /\ out = top_chunks argsort (doc_sims cosine f query p) (doc_chunks f p)
        /\ s = py_max (score_of p) 0%Q
        /\ (forall q, In q before -> candidate f q ->
              (score_of q < score_of p)%Q)
        /\ (forall q, In q after -> candidate f q ->
              (score_of q <= score_of p)%Q)).
Proof.
  unfold _tfidf_best_pdf_and_chunks. intros H.
  destruct (rank_pdfs cosine argsort mean f query no_best pdfs) as [b|e] eqn:E;
    [|discriminate].
  cbn [bind] in H. injection H as <- <- <-.
  destruct (rank_pdfs_inv pdfs _ _ E)
    as [[-> Hall] | (before & p & after & -> & Hp & -> & Hlt & Hb & Ha)].
  - left. repeat split; assumption.
  - right. exists before, after. repeat split; assumption.
Qed.

End RankerFacts.

(** The indices kept by the ranker are the [K] best, best first. *)
Lemma top_indices_spec (argsort : list score -> list nat) (sims : list score) :
  argsort_ok argsort ->
  let idx := top_indices argsort sims in
  NoDup idx
  /\ Forall (fun i => (i < List.length sims)%nat) idx
  /\ List.length idx = Nat.min TOP_K_CHUNKS_FOR_QA (List.length sims)
  /\ StronglySorted (fun i j => (nth j sims 0 <= nth i sims 0)%Q) idx
  /\ (forall i j, In i idx -> (j < List.length sims)%nat -> ~ In j idx ->
        (nth j sims 0 <= nth i sims 0)%Q).
Proof.
  intros Hok. destruct (Hok sims) as [Hperm Hsorted].
  unfold top_indices. set (a := argsort sims) in *.
  assert (Hnodup : NoDup (rev a)).
  { apply NoDup_rev. eapply Permutation_NoDup;
      [apply Permutation_sym, Hperm | apply seq_NoDup]. }
  assert (Hdesc : StronglySorted (fun i j => (nth j sims 0 <= nth i sims 0)%Q) (rev a))
    by (apply (StronglySorted_rev _ _ Hsorted)).
  rewrite <- (firstn_skipn TOP_K_CHUNKS_FOR_QA (rev a)) in Hnodup, Hdesc.
  apply StronglySorted_app_inv in Hdesc as (Hfirst & _ & Hcross).
  assert (Hin : forall i, In i (rev a) <-> (i < List.length sims)%nat).
  { intros i. rewrite <- in_rev. split; intros H.
    - apply (Permutation_in _ Hperm) in H. apply in_seq in H. lia.
    - apply (Permutation_in _ (Permutation_sym Hperm)). apply in_seq. lia. }
  repeat split.
  - eapply NoDup_app_remove_r. exact Hnodup.
  - apply Forall_forall. intros i Hi. apply Hin.
    rewrite <- (firstn_skipn TOP_K_CHUNKS_FOR_QA (rev a)).
    apply in_or_app. now left.
  - rewrite length_firstn, length_rev.
    now rewrite (Permutation_length Hperm), length_seq.
  - exact Hfirst.
  - intros i j Hi Hj Hnot. apply Hcross; [exact Hi|].
    apply Hin in Hj.
    rewrite <- (firstn_skipn TOP_K_CHUNKS_FOR_QA (rev a)) in Hj.
    apply in_app_or in Hj as [Hj|Hj]; [contradiction | exact Hj].
Qed.

Lemma insert_index_perm (sims : list score) (i : nat) (l : list nat) :
  Permutation (insert_index sims i l) (i :: l).
Proof.
  induction l as [|j l IH]; simpl; [apply Permutation_refl|].
  destruct (Qle_bool (nth i sims 0%Q) (nth j sims 0%Q)); [apply Permutation_refl|].
  eapply Permutation_trans; [apply perm_skip, IH | apply perm_swap].
Qed.

Lemma insert_index_sorted (sims : list score) (i : nat) (l : list nat) :
  Sorted (fun i j => (nth i sims 0 <= nth j sims 0)%Q) l ->
  Sorted (fun i j => (nth i sims 0 <= nth j sims 0)%Q) (insert_index sims i l).
Proof.
  induction 1 as [|j l Hl IH Hj]; simpl; [repeat constructor|].
  destruct (Qle_bool (nth i sims 0%Q) (nth j sims 0%Q)) eqn:E.
  - apply Qle_bool_iff in E. repeat constructor; assumption.
  - assert (Hji : (nth j sims 0 <= nth i sims 0)%Q).
    { apply Qlt_le_weak, Qnot_le_lt. intros Hle.
      apply Qle_bool_iff in Hle. congruence. }
    constructor; [exact IH|].
    destruct l as [|k l]; simpl; [now constructor|].
    destruct (Qle_bool (nth i sims 0%Q) (nth k sims 0%Q)); constructor;
      [exact Hji | now inversion Hj].
Qed.

(** The stand-in meets the contract of [np.argsort]. *)
Lemma stable_argsort_ok : argsort_ok stable_argsort.
Proof.
  intros sims. unfold stable_argsort.
  set (R := fun i j => (nth i sims 0 <= nth j sims 0)%Q).
  induction (seq 0 (List.length sims)) as [|i l [IHp IHs]]; simpl.
  - split; constructor.
  - split.
    + eapply Permutation_trans; [apply insert_index_perm | now apply perm_skip].
    + apply Sorted_StronglySorted.
      * intros x y z Hxy Hyz. unfold R in *. eapply Qle_trans; eassumption.
      * apply insert_index_sorted. now apply StronglySorted_Sorted.
Qed.

(** ** The top chunks of the selected document *)

(** C1 (as amended): when the ranker returns document [p], its chunk
    list is read off [np.argsort(sims)[::-1][:K]]: the listed chunks are
    [min K n] distinct chunks of [p], their scores descend along the
    list, and no chunk left out scores above a listed one.  The order
    among equal scores is the reverse of the one [np.argsort] gives. *)
Theorem top_chunks_score_descending
    (cosine : string -> list string -> string -> score)
    (argsort : list score -> list nat)
    (mean : list score -> score) (f : folder) (query : string)
    (pdfs : list string) (p : string) (out : list string) (s : score) :
  argsort_ok argsort ->
  _tfidf_best_pdf_and_chunks cosine argsort mean f query pdfs = Ok (p, out, s) ->
  p <> "" ->
  let chunks := doc_chunks f p in
  let sims := doc_sims cosine f query p in
  let idx := firstn TOP_K_CHUNKS_FOR_QA (rev (argsort sims)) in
  out = map (fun i => nth i chunks "") idx
  /\ NoDup idx
  /\ Forall (fun i => (i < List.length chunks)%nat) idx
  /\ List.length idx = Nat.min TOP_K_CHUNKS_FOR_QA (List.length chunks)
  /\ StronglySorted (fun i j => (nth j sims 0 <= nth i sims 0)%Q) idx
  /\ (forall i j, In i idx -> (j < List.length chunks)%nat -> ~ In j idx ->
        (nth j sims 0 <= nth i sims 0)%Q).
Proof.
  intros Hok H Hp chunks sims idx.
  destruct (tfidf_result _ _ _ _ _ _ _ _ _ H)
    as [(-> & _) | (before & after & _ & _ & _ & -> & _)]; [contradiction|].
  split; [reflexivity|].
  pose proof (top_indices_spec argsort sims Hok) as Hspec.
  assert (Hlen : List.length sims = List.length chunks)
    by (unfold sims, doc_sims; apply length_map).
  rewrite Hlen in Hspec. exact Hspec.
Qed.

Lemma top_chunks_score_descending_witness :
  let chunks := doc_chunks two_chunk_folder "guide.pdf" in
  let sims := doc_sims unrelated two_chunk_folder "tuition" "guide.pdf" in
  let idx := firstn TOP_K_CHUNKS_FOR_QA (rev (stable_argsort sims)) in
  ["beta."; long_sentence] = map (fun i => nth i chunks "") idx
  /\ NoDup idx
  /\ Forall (fun i => (i < List.length chunks)%nat) idx
  /\ List.length idx = Nat.min TOP_K_CHUNKS_FOR_QA (List.length chunks)
  /\ StronglySorted (fun i j => (nth j sims 0 <= nth i sims 0)%Q) idx
  /\ (forall i j, In i idx -> (j < List.length chunks)%nat -> ~ In j idx ->
        (nth j sims 0 <= nth i sims 0)%Q).
Proof.
  apply (top_chunks_score_descending unrelated stable_argsort exact_mean two_chunk_folder
           "tuition" ["guide.pdf"] "guide.pdf" ["beta."; long_sentence] 0%Q
           stable_argsort_ok).
  - vm_compute. reflexivity.
  - discriminate.
Defined.

(** C1, the claim as stated fails: the document has the chunks
    [long_sentence] and ["beta."] in this order, the query shares no
    term with either, so both score 0.0, and the ranker lists ["beta."]
    first. *)
Lemma top_chunks_ties_reversed :
  doc_chunks two_chunk_folder "guide.pdf" = [long_sentence; "beta."]
  /\ doc_sims unrelated two_chunk_folder "tuition" "guide.pdf" = [0%Q; 0%Q]
  /\ _tfidf_best_pdf_and_chunks unrelated stable_argsort exact_mean two_chunk_folder
       "tuition" ["guide.pdf"]
     = Ok ("guide.pdf", ["beta."; long_sentence], 0%Q).
Proof. vm_compute. repeat split; reflexivity. Qed.

(** ** The selected document *)

Lemma total_nonneg (xs : list score) :
  Forall (fun x => (0 <= x)%Q) xs -> (0 <= total xs)%Q.
Proof.
  induction 1 as [|x xs Hx _ IH]; simpl; [apply Qle_refl|].
  rewrite <- (Qplus_0_l 0). now apply Qplus_le_compat.
Qed.

Lemma mean_or_zero_nonneg (mean : list score -> score) (xs : list score) :
  mean_nonneg mean ->
  Forall (fun x => (0 <= x)%Q) xs -> (0 <= mean_or_zero mean xs)%Q.
Proof.
  intros Hm H. unfold mean_or_zero. destruct xs as [|x xs]; [apply Qle_refl|].
  now apply Hm.
Qed.

(** The exact mean is one such mean. *)
Lemma exact_mean_nonneg : mean_nonneg exact_mean.
Proof.
  intros xs H. unfold exact_mean. rewrite Qred_correct. unfold Qdiv.
  apply Qmult_le_0_compat.
  - now apply total_nonneg.
  - apply Qinv_le_0_compat. unfold len, Qle. simpl. lia.
Qed.

Lemma doc_score_nonneg
    (cosine : string -> list string -> string -> score)
    (argsort : list score -> list nat)
    (mean : list score -> score) (f : folder) (query pdf : string) :
  cosine_nonneg cosine -> mean_nonneg mean ->
  (0 <= doc_score cosine argsort mean f query pdf)%Q.
Proof.
  intros Hnn Hm. unfold doc_score, top_scores.
  apply mean_or_zero_nonneg; [exact Hm|].
  apply Forall_map, Forall_forall. intros i _. cbv beta.
  set (sims := doc_sims cosine f query pdf).
  destruct (nth_in_or_default i sims 0%Q) as [Hin|E];
    [|rewrite E; apply Qle_refl].
  apply in_map_iff in Hin as (c & E & _). rewrite <- E. apply Hnn.
Qed.

Lemma py_max_nonneg (a : score) : (0 <= a)%Q -> py_max a 0%Q = a.
Proof.
  intros H. unfold py_max.
  destruct (score_lt a 0%Q) eqn:E; [|reflexivity].
  apply score_lt_iff in E. now apply Qle_not_lt in H.
Qed.

(** C5: whenever the ranker returns, the document it names is the
    earliest one of the list that attains the maximum aggregate score,
    the aggregate being the score the code computes (the float mean of
    the top similarities): every candidate before it scores strictly
    less, every candidate after it at most as much; with no candidate
    it names no document.  And the ranker does return when the
    extraction of every listed document returns and the vectorizer
    fits every candidate of the list. *)
Theorem best_pdf_is_earliest_maximum
    (cosine : string -> list string -> string -> score)
    (argsort : list score -> list nat)
    (mean : list score -> score) (f : folder) (query : string)
    (pdfs : list string) :
  cosine_nonneg cosine ->
  mean_nonneg mean ->
  ((forall q, In q pdfs -> extracts f q) ->
   (forall q, In q pdfs -> candidate f q -> fits f query q) ->
   exists r, _tfidf_best_pdf_and_chunks cosine argsort mean f query pdfs = Ok r)
  /\ (forall p out s,
        _tfidf_best_pdf_and_chunks cosine argsort mean f query pdfs = Ok (p, out, s) ->
        (forall q, In q pdfs -> extracts f q)
        /\ ((p = "" /\ s = 0%Q /\ forall q, In q pdfs -> ~ candidate f q)
            \/ (exists before after,
                  pdfs = before ++ p :: after
                  /\ candidate f p
                  /\ s = doc_score cosine argsort mean f query p
                  /\ (forall q, In q before -> candidate f q ->
                        (doc_score cosine argsort mean f query q
                         < doc_score cosine argsort mean f query p)%Q)
                  /\ (forall q, In q after -> candidate f q ->
                        (doc_score cosine argsort mean f query q
                         <= doc_score cosine argsort mean f query p)%Q)))).
Proof.
  intros Hnn Hm. split.
  - intros Hex Hfits.
    destruct (rank_pdfs_returns cosine argsort mean f query pdfs Hex Hfits no_best)
      as [b Hb].
    unfold _tfidf_best_pdf_and_chunks. rewrite Hb. cbn [bind]. now eexists.
  - intros p out s H. split.
    { unfold _tfidf_best_pdf_and_chunks in H.
      destruct (rank_pdfs cosine argsort mean f query no_best pdfs) as [b|e] eqn:E;
        [|discriminate].
      exact (rank_pdfs_extracted cosine argsort mean f query pdfs _ _ E). }
    destruct (tfidf_result _ _ _ _ _ _ _ _ _ H)
      as [(Hp & _ & Hs & _ & Hall)
         | (before & after & Hpdfs & Hc & _ & _ & Hs & Hbefore & Hafter)].
    + left. repeat split; try assumption. intros q Hin Hq.
      pose proof (Hall q Hin Hq) as Hle.
      pose proof (doc_score_nonneg cosine argsort mean f query q Hnn Hm) as H0.
      pose proof (Qle_trans _ _ _ H0 Hle) as Habs.
      now apply Qle_bool_iff in Habs.
    + right. exists before, after. repeat split; try assumption.
      rewrite Hs. apply py_max_nonneg. now apply doc_score_nonneg.
Qed.

Lemma repeats_or_unrelated_nonneg : cosine_nonneg repeats_or_unrelated.
Proof.
  intros query chunks c. unfold repeats_or_unrelated.
  destruct (String.eqb c query); discriminate.
Qed.

Lemma best_pdf_is_earliest_maximum_witness :
  _tfidf_best_pdf_and_chunks repeats_or_unrelated stable_argsort exact_mean
    music_and_cats "tuition" ["cats.pdf"; "music.pdf"]
  = Ok ("cats.pdf", ["Cats sleep all day."], 0%Q)
  /\ (exists r,
        _tfidf_best_pdf_and_chunks repeats_or_unrelated stable_argsort
          exact_mean music_and_cats "tuition" ["cats.pdf"; "music.pdf"] = Ok r)
  /\ (forall q, In q ["cats.pdf"; "music.pdf"] -> extracts music_and_cats q)
  /\ (("cats.pdf" = "" /\ 0%Q = 0%Q
       /\ forall q, In q ["cats.pdf"; "music.pdf"] ->
            ~ candidate music_and_cats q)
      \/ (exists before after,
            ["cats.pdf"; "music.pdf"] = before ++ "cats.pdf" :: after
            /\ candidate music_and_cats "cats.pdf"
            /\ 0%Q = doc_score repeats_or_unrelated stable_argsort exact_mean
                       music_and_cats "tuition" "cats.pdf"
            /\ (forall q, In q before -> candidate music_and_cats q ->
                  (doc_score repeats_or_unrelated stable_argsort exact_mean
                     music_and_cats "tuition" q
                   < doc_score repeats_or_unrelated stable_argsort exact_mean
                       music_and_cats "tuition" "cats.pdf")%Q)
            /\ (forall q, In q after -> candidate music_and_cats q ->
                  (doc_score repeats_or_unrelated stable_argsort exact_mean
                     music_and_cats "tuition" q
                   <= doc_score repeats_or_unrelated stable_argsort exact_mean
                        music_and_cats "tuition" "cats.pdf")%Q))).
Proof.
  assert (E : _tfidf_best_pdf_and_chunks repeats_or_unrelated stable_argsort
                exact_mean music_and_cats "tuition" ["cats.pdf"; "music.pdf"]
              = Ok ("cats.pdf", ["Cats sleep all day."], 0%Q))
    by (vm_compute; reflexivity).
  destruct (best_pdf_is_earliest_maximum repeats_or_unrelated stable_argsort
              exact_mean music_and_cats "tuition" ["cats.pdf"; "music.pdf"]
              repeats_or_unrelated_nonneg exact_mean_nonneg)
    as [Hreturns Hbest].
  split; [exact E|]. split.
  - apply Hreturns.
    + intros q [<-|[<-|[]]]; eexists; reflexivity.
    + intros q [<-|[<-|[]]] _; vm_compute; reflexivity.
  - exact (Hbest _ _ _ E).
Defined.

(** C9 (as amended): inserting a document anywhere in the candidate
    list leaves the ranker's result unchanged when the extraction of
    the document returns and either it yields no chunk, or the
    vectorizer fits it and its aggregate score, as the code computes
    it, is strictly below the returned score.  The folder [f] holds the
    file of the document in both runs; only the list of names differs. *)
Theorem adding_lower_scored_pdf
    (cosine : string -> list string -> string -> score)
    (argsort : list score -> list nat)
    (mean : list score -> score) (f : folder) (query : string)
    (l1 l2 : list string) (d p : string) (out : list string) (s : score) :
  cosine_nonneg cosine ->
  mean_nonneg mean ->
  _tfidf_best_pdf_and_chunks cosine argsort mean f query (l1 ++ l2)
  = Ok (p, out, s) ->
  extracts f d ->
  (~ candidate f d
   \/ (fits f query d /\ (doc_score cosine argsort mean f query d < s)%Q)) ->
  _tfidf_best_pdf_and_chunks cosine argsort mean f query (l1 ++ d :: l2)
  = Ok (p, out, s).
Proof.
  intros Hnn Hm H Hex Hd. unfold _tfidf_best_pdf_and_chunks in *.
  rewrite rank_pdfs_app in *.
  destruct (rank_pdfs cosine argsort mean f query no_best l1) as [b1|e] eqn:E1;
    cbn [bind] in *; [|discriminate].
  cbn [rank_pdfs].
  destruct (rank_pdfs cosine argsort mean f query b1 l2) as [b|e] eqn:E2;
    cbn [bind] in H; [|discriminate].
  injection H as <- <- <-.
  destruct (rank_pdf_cases cosine argsort mean f query b1 d)
    as [(e & He & E) | [(_ & Hno & E) | [(Hc & Hfit & E)
       | [(Hc & Hfit & Hlt & E) | (Hc & Hfit & Hle & E)]]]];
    rewrite E; cbn [bind].
  - destruct Hex as [text Ht]. congruence.
  - now rewrite E2.
  - destruct Hd as [Hd|[Hd _]]; contradiction.
  - destruct Hd as [Hd|[_ Hd]]; [contradiction|].
    pose proof (doc_score_nonneg cosine argsort mean f query d Hnn Hm) as H0.
    assert (Hs : py_max (best_score b) 0%Q = best_score b).
    { unfold py_max in *. destruct (score_lt (best_score b) 0%Q); [|reflexivity].
      exfalso. now apply Qle_not_lt in H0. }
    rewrite Hs in Hd.
    rewrite (rank_pdfs_absorb cosine argsort mean f query l2 b1 _ b); try assumption.
    + reflexivity.
    + now apply Qlt_le_weak.
  - now rewrite E2.
Qed.

Lemma adding_lower_scored_pdf_witness :
  _tfidf_best_pdf_and_chunks repeats_or_unrelated stable_argsort exact_mean
    music_and_cats music_text ([] ++ "cats.pdf" :: ["music.pdf"])
  = Ok ("music.pdf", [music_text], 1%Q).
Proof.
  apply (adding_lower_scored_pdf repeats_or_unrelated stable_argsort exact_mean
           music_and_cats music_text [] ["music.pdf"] "cats.pdf").
  - exact repeats_or_unrelated_nonneg.
  - exact exact_mean_nonneg.
  - vm_compute. reflexivity.
  - eexists. reflexivity.
  - right. split; vm_compute; reflexivity.
Defined.

(** C9, the claim as stated fails: no chunk of either document shares a
    term with the query, so every similarity is 0.0; alone, [music.pdf]
    is selected; once [cats.pdf] is in the folder it sorts first, reaches
    the same score first, and is selected. *)
Lemma unrelated_pdf_changes_best :
  doc_sims unrelated music_and_cats "tuition" "cats.pdf" = [0%Q]
  /\ discover_pdfs music_only = ["music.pdf"]
  /\ discover_pdfs music_and_cats = ["cats.pdf"; "music.pdf"]
  /\ _tfidf_best_pdf_and_chunks unrelated stable_argsort exact_mean music_only
       "tuition" (discover_pdfs music_only)
     = Ok ("music.pdf", [music_text], 0%Q)
  /\ _tfidf_best_pdf_and_chunks unrelated stable_argsort exact_mean music_and_cats
       "tuition" (discover_pdfs music_and_cats)
     = Ok ("cats.pdf", ["Cats sleep all day."], 0%Q).
Proof. vm_compute. repeat split; reflexivity. Qed.

(** ** The orchestrators *)

(** C2, evaluated where the claim fails: the question ["?"] holds no
    term and neither does the text of the only document, so [fit] raises
    inside the ranker and both orchestrators let the exception out
    instead of returning a triple.  This holds whatever the library
    calls and the services would do. *)
Theorem empty_vocabulary_escapes
    (cosine : string -> list string -> string -> score)
    (argsort : list score -> list nat)
    (mean : list score -> score) (n : ninjas) (g : groq) :
  doc_chunks page_numbers "scan.pdf" = ["1 2 3"]
  /\ answer_question_auto cosine argsort mean page_numbers n g "?"
     = Raise empty_vocabulary
  /\ summarize_on_prompt cosine argsort mean page_numbers g "?"
     = Raise empty_vocabulary.
Proof. repeat split; reflexivity. Qed.

Lemma insert_name_in (x y : string) (l : list string) :
  In y (insert_name x l) -> y = x \/ In y l.
Proof.
  induction l as [|z l IH]; simpl.
  - intros [<-|[]]. now left.
  - destruct (str_leb x z); simpl.
    + intros [<-|H]; [now left | now right].
    + intros [<-|H]; [right; now left|].
      destruct (IH H) as [->|Hin]; [now left | right; now right].
Qed.

Lemma sort_names_in (y : string) (l : list string) :
  In y (sort_names l) -> In y l.
Proof.
  induction l as [|x l IH]; simpl; [auto|].
  intros H. apply insert_name_in in H as [->|H]; [now left | right; auto].
Qed.

(** Every name listed by [discover_pdfs] ends in [.pdf]; none is empty. *)
Lemma discover_pdfs_named (f : folder) (name : string) :
  In name (discover_pdfs f) -> name <> "".
Proof.
  unfold discover_pdfs. destruct f as [entries|]; [|intros []].
  intros H. apply sort_names_in, filter_In in H as [_ H].
  intros ->. discriminate.
Qed.

(** C10: whenever the ranker returns [(p, chunks, s)] on the listed
    documents, [answer_question_auto] returns a triple with the same
    [p] and [s]; when a document was selected, the answer is the reply
    to the prompt built from some reordering of [chunks], and this is
    all the re-ranker and the generation service decide.  When the
    ranker raises, so does the orchestrator. *)
Theorem answer_keeps_ranking
    (cosine : string -> list string -> string -> score)
    (argsort : list score -> list nat)
    (mean : list score -> score) (f : folder) (n : ninjas) (g : groq)
    (question : string) :
  match _tfidf_best_pdf_and_chunks cosine argsort mean f question (discover_pdfs f)
  with
  | Ok (p, chunks, s) =>
      exists out,
        answer_question_auto cosine argsort mean f n g question = Ok (out, p, s)
        /\ (p <> "" ->
            exists reordered,
              Permutation reordered chunks
              /\ out = text (fst (_chat_complete g
                   [Message "system" "You are a precise academic assistant.";
                    Message "user"
                      (answer_prompt p (paragraphs reordered) question)])))
  | Raise e => answer_question_auto cosine argsort mean f n g question = Raise e
  end.
Proof.
  unfold answer_question_auto.
  pose proof (discover_pdfs_named f) as Hnamed.
  destruct (discover_pdfs f) as [|pdf rest] eqn:Hpdfs.
  - cbn. eexists. split; [reflexivity|]. intros H. now contradiction H.
  - destruct (_tfidf_best_pdf_and_chunks cosine argsort mean f question (pdf :: rest))
      as [[[p chunks] s]|e] eqn:H; cbn [bind]; [|reflexivity].
    destruct (String.eqb p "") eqn:Hp.
    + apply String.eqb_eq in Hp. subst p.
      destruct (tfidf_result _ _ _ _ _ _ _ _ _ H)
        as [(_ & _ & -> & _) | (before & after & Hin & _)].
      * eexists. split; [reflexivity|]. intros Hne. now contradiction Hne.
      * exfalso. apply (Hnamed ""); [|reflexivity].
        rewrite Hin. apply in_or_app. right. now left.
    + eexists. split; [reflexivity|]. intros _.
      exists (_api_ninjas_refine n question chunks).
      split; [apply api_ninjas_refine_lists | reflexivity].
Qed.

(** * Further properties *)

(** ** Listing the folder *)

Lemma str_leb_total (a : string) :
  forall b, str_leb a b = false -> str_leb b a = true.
Proof.
  induction a as [|x a IH]; intros [|y b]; simpl; try discriminate; auto.
  destruct (nat_of_ascii x <? nat_of_ascii y)%nat eqn:Exy; [discriminate|].
  destruct (nat_of_ascii y <? nat_of_ascii x)%nat eqn:Eyx; [reflexivity|].
  apply IH.
Qed.

Lemma str_leb_trans (a : string) :
  forall b c, str_leb a b = true -> str_leb b c = true -> str_leb a c = true.
Proof.
  induction a as [|x a IH]; intros [|y b] [|z c]; simpl; try discriminate; auto.
  destruct (nat_of_ascii x <? nat_of_ascii y)%nat eqn:Exy;
    destruct (nat_of_ascii y <? nat_of_ascii x)%nat eqn:Eyx;
    destruct (nat_of_ascii y <? nat_of_ascii z)%nat eqn:Eyz;
    destruct (nat_of_ascii z <? nat_of_ascii y)%nat eqn:Ezy;
    destruct (nat_of_ascii x <? nat_of_ascii z)%nat eqn:Exz;
    destruct (nat_of_ascii z <? nat_of_ascii x)%nat eqn:Ezx;
    try discriminate; try reflexivity;
    rewrite ?Nat.ltb_lt, ?Nat.ltb_ge in *; try lia.
  apply IH.
Qed.

Lemma insert_name_perm (x : string) (l : list string) :
  Permutation (insert_name x l) (x :: l).
Proof.
  induction l as [|y l IH]; simpl; [apply Permutation_refl|].
  destruct (str_leb x y); [apply Permutation_refl|].
  eapply Permutation_trans; [apply perm_skip, IH | apply perm_swap].
Qed.

Lemma sort_names_perm (l : list string) : Permutation (sort_names l) l.
Proof.
  induction l as [|x l IH]; simpl; [constructor|].
  eapply Permutation_trans; [apply insert_name_perm | now apply perm_skip].
Qed.

Lemma insert_name_sorted (x : string) (l : list string) :
  Sorted str_le l -> Sorted str_le (insert_name x l).
Proof.
  induction 1 as [|y l Hl IH Hy]; simpl; [repeat constructor|].
  destruct (str_leb x y) eqn:E.
  - repeat constructor; assumption.
  - apply str_leb_total in E. constructor; [exact IH|].
    destruct l as [|z l]; simpl; [now constructor|].
    destruct (str_leb x z); constructor; [exact E | now inversion Hy].
Qed.

Lemma sort_names_sorted (l : list string) : StronglySorted str_le (sort_names l).
Proof.
  apply Sorted_StronglySorted.
  - intros a b c. apply str_leb_trans.
  - induction l as [|x l IH]; simpl; [constructor|].
    now apply insert_name_sorted.
Qed.

(** X1: the listing of [discover_pdfs] is in ascending code-point
    order, and it holds exactly the directory entries whose lowercased
    name ends in [.pdf], each as often as the directory lists it; a
    missing folder lists nothing. *)
Theorem discover_pdfs_sorted_pdf_names (f : folder) :
  StronglySorted str_le (discover_pdfs f)
  /\ Forall (fun name => PyStr.ends_with_pdf name = true) (discover_pdfs f)
  /\ match f with
     | None => discover_pdfs f = []
     | Some entries =>
         Permutation (discover_pdfs f)
           (filter PyStr.ends_with_pdf (map fst entries))
     end.
Proof.
  destruct f as [entries|]; simpl.
  - repeat split.
    + apply sort_names_sorted.
    + apply Forall_forall. intros name H.
      apply (Permutation_in _ (sort_names_perm _)) in H.
      now apply filter_In in H.
    + apply sort_names_perm.
  - repeat split; constructor.
Qed.

(** ** More on the chunker *)

(** The words of the chunks are the words of the text, for every
    limit. *)
Lemma chunk_words_split (T : string) (L : Z) :
  chunk_words (chunk_text T L) = PyStr.split T.
Proof.
  destruct (chunk_text_groups T L) as (groups & -> & Hcat & Hgood).
  unfold chunk_words. rewrite map_map.
  rewrite (map_ext_in _ (@List.concat string)).
  - rewrite concat_concat_groups, Hcat, concat_sentence_words.
    apply sentences_words.
  - intros g Hin. apply (group_chunk_words L).
    rewrite Forall_forall in Hgood. now apply Hgood.
Qed.

Lemma join_not_empty (ws : list string) :
  ws <> [] -> Forall PyStr.is_word ws -> PyStr.join ws <> "".
Proof.
  intros Hne H. destruct ws as [|w ws]; [contradiction|].
  inversion H as [|? ? [Hw _] _]; subst.
  destruct w as [|c w]; [contradiction|].
  destruct ws; discriminate.
Qed.

Lemma good_group_words (L : Z) (g : list (list string)) :
  good_group L g -> List.concat g <> [].
Proof.
  intros (Hne & Hproper & _) E.
  apply proper_concat_nil in E; [contradiction | assumption].
Qed.

Lemma chunk_text_empty_iff_words (T : string) (L : Z) :
  chunk_text T L = [] <-> PyStr.split T = [].
Proof.
  split; intros H.
  - rewrite <- (chunk_words_split T L), H. reflexivity.
  - pose proof (chunk_words_split T L) as Hw. rewrite H in Hw.
    destruct (chunk_text_groups T L) as (groups & E & _ & Hgood).
    rewrite E in *. destruct groups as [|g groups]; [reflexivity|].
    inversion Hgood as [|? ? Hg _]; subst. exfalso.
    unfold chunk_words in Hw. simpl in Hw.
    rewrite (group_chunk_words L g Hg) in Hw.
    apply app_eq_nil in Hw as [Hw _].
    now apply (good_group_words L g Hg).
Qed.

(** X3: [chunk_text] returns no chunk exactly when the text has no
    word (it is empty or all whitespace), whatever the limit. *)
Theorem chunk_text_empty_iff (T : string) (L : Z) :
  chunk_text T L = [] <-> PyStr.split T = [].
Proof. apply chunk_text_empty_iff_words. Qed.

(** X4: every chunk of [chunk_text] is non-empty and is its own words
    joined by single spaces: no leading, trailing or doubled
    whitespace survives chunking. *)
Theorem chunk_text_chunks_normalized (T : string) (L : Z) :
  Forall (fun c => c <> "" /\ PyStr.join (PyStr.split c) = c) (chunk_text T L).
Proof.
  destruct (chunk_text_groups T L) as (groups & -> & _ & Hgood).
  apply Forall_map. apply Forall_impl with (2 := Hgood). intros g Hg.
  split.
  - unfold group_chunk. apply join_not_empty.
    + now apply (good_group_words L).
    + destruct Hg as (_ & Hproper & _). now apply proper_concat.
  - rewrite (group_chunk_words L g Hg). reflexivity.
Qed.

Lemma chunk_fold_within (L : Z) (sentences : list string) :
  forall current,
    (len current + len (List.concat (map PyStr.split sentences)) <= L)%Z ->
    fold_left (chunk_step L) sentences ([], current, len current)
    = ([], current ++ List.concat (map PyStr.split sentences),
       len (current ++ List.concat (map PyStr.split sentences))).
Proof.
  induction sentences as [|s rest IH]; intros current H; simpl.
  - now rewrite app_nil_r.
  - simpl in H. rewrite len_app in H. unfold chunk_step at 1.
    destruct (PyStr.split s) as [|w ws] eqn:Hs.
    + simpl in *. now apply IH.
    + set (words := w :: ws) in *.
      assert (Hfit : (len current + len words >? L)%Z = false).
      { rewrite Z.gtb_ltb. apply Z.ltb_ge.
        assert (0 <= len (List.concat (map PyStr.split rest)))%Z
          by (unfold len; lia).
        lia. }
      rewrite Hfit, <- len_app, IH.
      * now rewrite <- app_assoc.
      * rewrite len_app. lia.
Qed.

(** X5: a text with at least one word and at most [L] words is one
    chunk, its words joined by single spaces. *)
Theorem chunk_text_short_text (T : string) (L : Z) :
  PyStr.split T <> [] ->
  (len (PyStr.split T) <= L)%Z ->
  chunk_text T L = [PyStr.join (PyStr.split T)].
Proof.
  intros Hne Hle. unfold chunk_text.
  change (0%Z) with (len (@nil string)).
  rewrite chunk_fold_within; rewrite sentences_words.
  - simpl. unfold close_chunk. destruct (PyStr.split T); [contradiction | reflexivity].
  - unfold len at 1. simpl. exact Hle.
Qed.

Lemma chunk_text_short_text_witness :
  chunk_text "  Fees are   due April 1. Pay online!  " 500
  = [PyStr.join (PyStr.split "  Fees are   due April 1. Pay online!  ")].
Proof.
  apply chunk_text_short_text; [discriminate | vm_compute; discriminate].
Defined.

(** ** More on sentences *)

Lemma rev_onto_append (s : string) :
  forall acc t, PyStr.rev_onto acc (s ++ t)%string
                = PyStr.rev_onto (PyStr.rev_onto acc s) t.
Proof.
  induction s as [|c s IH]; intros acc t; simpl; [reflexivity | apply IH].
Qed.

Lemma ends_with_terminator_snoc (cur : string) (c : ascii) :
  ends_with_terminator (PyStr.snoc cur c) = PyStr.is_terminator c.
Proof.
  unfold ends_with_terminator, PyStr.snoc. now rewrite rev_onto_append.
Qed.

Lemma scan_next_terminator (c : ascii) :
  scan_next c = AfterTerminator -> PyStr.is_terminator c = true.
Proof. unfold scan_next. destruct (PyStr.is_terminator c); [reflexivity | discriminate]. Qed.

Lemma re_split_from_not_nil (s : string) :
  forall st cur, re_split_from st cur s <> [].
Proof.
  induction s as [|c s IH]; intros st cur; simpl; [discriminate|].
  destruct st; try destruct (PyStr.isspace c); try apply IH; discriminate.
Qed.

Lemma re_split_from_terminated (s : string) :
  forall st cur,
    (st = AfterTerminator -> ends_with_terminator cur = true) ->
    Forall (fun p => ends_with_terminator p = true)
      (removelast (re_split_from st cur s)).
Proof.
  assert (Hnext : forall c cur,
             scan_next c = AfterTerminator ->
             ends_with_terminator (PyStr.snoc cur c) = true).
  { intros c cur H. rewrite ends_with_terminator_snoc.
    now apply scan_next_terminator. }
  induction s as [|c s IH]; intros st cur Hst; [constructor|].
  cbn [re_split_from]. destruct st.
  - apply IH. apply Hnext.
  - destruct (PyStr.isspace c).
    + pose proof (re_split_from_not_nil s InGap "") as Hne.
      cbn [removelast].
      destruct (re_split_from InGap "" s) as [|p ps] eqn:E; [contradiction|].
      constructor; [now apply Hst|].
      rewrite <- E. apply IH. discriminate.
    + apply IH. apply Hnext.
  - destruct (PyStr.isspace c); apply IH; [discriminate | apply Hnext].
Qed.

(** X6: [_split_into_sentences] always returns at least one piece, and
    every piece but the last ends in one of [. ! ?]. *)
Theorem sentences_end_with_terminator (text : string) :
  _split_into_sentences text <> []
  /\ Forall (fun p => ends_with_terminator p = true)
       (removelast (_split_into_sentences text)).
Proof.
  unfold _split_into_sentences. split.
  - apply re_split_from_not_nil.
  - apply re_split_from_terminated. discriminate.
Qed.

(** ** Extraction and chunking together *)

Lemma split_pages (texts : list string) :
  PyStr.split (String.concat newline texts)
  = List.concat (map PyStr.split texts).
Proof.
  induction texts as [|t texts IH]; [reflexivity|].
  destruct texts as [|t' texts].
  - simpl. now rewrite app_nil_r.
  - change (String.concat newline (t :: t' :: texts))
      with (t ++ String (ascii_of_nat 10) (String.concat newline (t' :: texts)))%string.
    unfold PyStr.split at 1. rewrite words_from_gap by reflexivity.
    fold (PyStr.split t). rewrite IH. reflexivity.
Qed.

Lemma extracted_words (f : folder) (pdf text : string) :
  extract_text_from_pdf_path f pdf = Ok text ->
  PyStr.split text = page_words f pdf.
Proof.
  unfold extract_text_from_pdf_path, page_words.
  destruct f as [entries|]; [|now intros [= <-]].
  destruct (lookup_file pdf entries) as [[| |pages]|];
    try (now intros [= <-]); try discriminate.
  intros [= <-]. apply split_pages.
Qed.

Lemma extraction_cases (f : folder) (pdf : string) :
  (is_locked f pdf = true
   /\ extract_text_from_pdf_path f pdf = Raise document_locked)
  \/ (is_locked f pdf = false
      /\ exists text, extract_text_from_pdf_path f pdf = Ok text).
Proof.
  unfold is_locked, extract_text_from_pdf_path.
  destruct f as [entries|]; [|right; split; [reflexivity | now eexists]].
  destruct (lookup_file pdf entries) as [[| |pages]|];
    try (right; split; [reflexivity | now eexists]).
  left. now split.
Qed.

(** X2: the extraction of a locked file (it opens, iterating its pages
    raises) raises, and so does the ranker's loop body on it.  The
    extraction of any other file returns a text, and the words of the
    chunks of that text, chunk after chunk, are the words of the pages
    that gave text, page after page; a file that is missing, or that
    PyMuPDF cannot open, has none, and the text yields no chunk exactly
    when those pages hold no word. *)
Theorem doc_chunks_page_words (f : folder) (pdf : string) :
  (is_locked f pdf = true ->
   extract_text_from_pdf_path f pdf = Raise document_locked
   /\ forall cosine argsort mean query b,
        rank_pdf cosine argsort mean f query b pdf = Raise document_locked)
  /\ (is_locked f pdf = false ->
      exists text,
        extract_text_from_pdf_path f pdf = Ok text
        /\ chunk_words (chunk_text text MAX_WORDS_PER_CHUNK) = page_words f pdf
        /\ (chunk_text text MAX_WORDS_PER_CHUNK = [] <-> page_words f pdf = [])).
Proof.
  destruct (extraction_cases f pdf) as [[Hl E] | [Hl [text E]]]; rewrite Hl.
  - split; [intros _ | discriminate]. split; [exact E|].
    intros cosine argsort mean query b. unfold rank_pdf. now rewrite E.
  - split; [discriminate | intros _]. exists text. split; [exact E|].
    rewrite <- (extracted_words f pdf text E). split.
    + apply chunk_words_split.
    + apply chunk_text_empty_iff_words.
Qed.

(** ** More on the generation client *)

(** X7: once [_get_client] has built a client it is memoized: every
    later call returns the same client and leaves the global alone,
    whatever the key has become (also empty or the placeholder) and
    whatever the constructor would now do. *)
Theorem get_client_memoized (g g' : groq) (c : client) :
  _get_client g = (Some c, g') ->
  forall key connect,
    _get_client (Groq (_groq_client g') key connect)
    = (Some c, Groq (_groq_client g') key connect).
Proof.
  unfold _get_client. intros H key connect.
  destruct (_groq_client g) as [c0|] eqn:Hc.
  - injection H as <- <-. simpl. now rewrite Hc.
  - destruct (key_missing (groq_key g) "your_groq_api_key_here"); [discriminate|].
    destruct (groq_connect g (groq_key g)) as [c1|]; [|discriminate].
    injection H as <- <-. reflexivity.
Qed.

Lemma get_client_memoized_witness :
  _get_client (Groq (_groq_client (set_client (with_client second_answers)
                                      (Some second_answers)))
                    "" (fun _ => None))
  = (Some second_answers,
     Groq (_groq_client (set_client (with_client second_answers)
                           (Some second_answers)))
          "" (fun _ => None)).
Proof.
  apply (get_client_memoized (with_client second_answers)). reflexivity.
Defined.

(** What the loop over the models returns, for any client: the first
    choice of the first model that gives one, the models up to it
    having been called; or, when no model gives a choice, the error
    text after all of them were called. *)
Lemma try_models_outcome (c : client) (messages : list message)
    (models : list string) :
  forall last_error tried,
    let r := try_models c messages models last_error tried in
    (exists before m after choice more,
        models = before ++ m :: after
        /\ (forall m', In m' before ->
              forall ch rest, c m' messages <> Completion (ch :: rest))
        /\ c m messages = Completion (choice :: more)
        /\ r = Reply choice (tried ++ before ++ [m]))
    \/ ((forall m', In m' models ->
           forall ch rest, c m' messages <> Completion (ch :: rest))
        /\ attempted r = tried ++ models
        /\ exists e, text r = ("[LLM error: " ++ e ++ "]")%string).
Proof.
  induction models as [|m models IH]; intros last_error tried; cbn [try_models].
  - right. cbn. rewrite app_nil_r. repeat split.
    + intros m' [].
    + now eexists.
  - destruct (c m messages) as [e|[|choice more]] eqn:Hm.
    + destruct (IH (Some e) (tried ++ [m]))
        as [(before & m0 & after & ch & mo & -> & Hb & Hm0 & ->)
           | (Hall & Hatt & Herr)].
      * left. exists (m :: before), m0, after, ch, mo. repeat split; auto.
        -- intros m' [<-|Hin] ? ?; [congruence | now apply Hb].
        -- now rewrite <- app_assoc.
      * right. repeat split; auto.
        -- intros m' [<-|Hin] ? ?; [congruence | now apply Hall].
        -- rewrite Hatt. now rewrite <- app_assoc.
    + destruct (IH last_error (tried ++ [m]))
        as [(before & m0 & after & ch & mo & -> & Hb & Hm0 & ->)
           | (Hall & Hatt & Herr)].
      * left. exists (m :: before), m0, after, ch, mo. repeat split; auto.
        -- intros m' [<-|Hin] ? ?; [congruence | now apply Hb].
        -- now rewrite <- app_assoc.
      * right. repeat split; auto.
        -- intros m' [<-|Hin] ? ?; [congruence | now apply Hall].
        -- rewrite Hatt. now rewrite <- app_assoc.
    + left. exists [], m, models, choice, more. repeat split; auto.
Qed.

(** X9: with a client available, for any behaviour of the service
    (exceptions and responses without choices alike count as a miss) the
    reply of the generation client is the first choice of the first
    model, in priority order, that gives one, and no model after it is
    called; when no model gives a choice every model has been called
    once, in order, and the reply is an ["[LLM error: ...]"] text. *)
Theorem chat_first_choice_wins (g g' : groq) (c : client)
    (models : list string) (messages : list message) :
  _get_client g = (Some c, g') ->
  let r := fst (chat_with models g messages) in
  (exists before m after choice more,
      models = before ++ m :: after
      /\ (forall m', In m' before ->
            forall ch rest, c m' messages <> Completion (ch :: rest))
      /\ c m messages = Completion (choice :: more)
      /\ r = Reply choice (before ++ [m]))
  \/ ((forall m', In m' models ->
         forall ch rest, c m' messages <> Completion (ch :: rest))
      /\ attempted r = models
      /\ exists e, text r = ("[LLM error: " ++ e ++ "]")%string).
Proof.
  intros Hc. unfold chat_with. rewrite Hc. cbn [fst].
  exact (try_models_outcome c messages models None []).
Qed.

Lemma chat_first_choice_wins_witness :
  let r := fst (chat_with MODEL_PRIORITY (with_client second_answers) two_turns) in
  (exists before m after choice more,
      MODEL_PRIORITY = before ++ m :: after
      /\ (forall m', In m' before ->
            forall ch rest, second_answers m' two_turns <> Completion (ch :: rest))
      /\ second_answers m two_turns = Completion (choice :: more)
      /\ r = Reply choice (before ++ [m]))
  \/ ((forall m', In m' MODEL_PRIORITY ->
         forall ch rest, second_answers m' two_turns <> Completion (ch :: rest))
      /\ attempted r = MODEL_PRIORITY
      /\ exists e, text r = ("[LLM error: " ++ e ++ "]")%string).
Proof.
  apply (chat_first_choice_wins (with_client second_answers)
           (set_client (with_client second_answers) (Some second_answers))).
  reflexivity.
Defined.

Lemma try_models_no_choices (c : client) (messages : list message)
    (models : list string) :
  Forall (fun m => c m messages = Completion []) models ->
  forall last_error tried,
    try_models c messages models last_error tried
    = Reply ("[LLM error: " ++ show_error last_error ++ "]") (tried ++ models).
Proof.
  induction 1 as [|m models Hm _ IH]; intros last_error tried; cbn [try_models].
  - now rewrite app_nil_r.
  - rewrite Hm, IH. now rewrite <- app_assoc.
Qed.

(** X8: when every model answers without raising but with an empty
    choice list, no error is recorded: all models are called and the
    reply is the text ["[LLM error: None]"]. *)
Theorem chat_no_choices_reports_none (g g' : groq) (c : client)
    (models : list string) (messages : list message) :
  _get_client g = (Some c, g') ->
  Forall (fun m => c m messages = Completion []) models ->
  fst (chat_with models g messages) = Reply "[LLM error: None]" models.
Proof.
  intros Hc Hall. unfold chat_with. rewrite Hc. cbn [fst].
  now rewrite (try_models_no_choices c messages models Hall).
Qed.

Lemma chat_no_choices_reports_none_witness :
  fst (_chat_complete (with_client no_choices) two_turns)
  = Reply "[LLM error: None]" MODEL_PRIORITY.
Proof.
  apply (chat_no_choices_reports_none (with_client no_choices)
           (set_client (with_client no_choices) (Some no_choices)) no_choices).
  - reflexivity.
  - repeat constructor.
Defined.

Lemma length_append (a b : string) :
  String.length (a ++ b)%string = (String.length a + String.length b)%nat.
Proof. induction a as [|x a IH]; simpl; [reflexivity | now rewrite IH]. Qed.

Lemma length_substring_le (n : nat) (s : string) :
  (String.length (substring 0 n s) <= n)%nat.
Proof.
  revert n. induction s as [|c s IH]; intros [|n]; simpl; try lia.
  specialize (IH n). lia.
Qed.

Lemma fallback_text_length (txt : string) :
  (String.length (fallback_text txt) <= 803)%nat.
Proof.
  unfold fallback_text, PyStr.prefix. rewrite length_append.
  pose proof (length_substring_le 800 txt).
  destruct (800 <? String.length txt)%nat; simpl; lia.
Qed.

(** X10: when no client is available (no key, the placeholder key, or
    the import or construction of the client raises), the generation
    client calls no model, its reply has at most 803 characters, and
    for a message list without a user turn it is the text
    ["[No Groq API key configured]"]. *)
Theorem chat_without_client (g g' : groq) (models : list string)
    (messages : list message) :
  _get_client g = (None, g') ->
  let r := fst (chat_with models g messages) in
  attempted r = []
  /\ (String.length (text r) <= 803)%nat
  /\ (Forall (fun m => role m <> "user") messages ->
      text r = "[No Groq API key configured]").
Proof.
  intros Hc. unfold chat_with. rewrite Hc. cbn [fst].
  destruct (last_user (rev messages)) as [txt|] eqn:E; cbn; repeat split.
  - apply fallback_text_length.
  - intros Hnone. rewrite <- (app_nil_r (rev messages)) in E.
    rewrite last_user_skips in E; [discriminate | exact Hnone].
  - lia.
Qed.

Lemma chat_without_client_witness :
  let r := fst (chat_with MODEL_PRIORITY
                  (Groq None "gsk_example" (fun _ => None))
                  [Message "system" "You are a precise academic assistant."]) in
  attempted r = []
  /\ (String.length (text r) <= 803)%nat
  /\ (Forall (fun m => role m <> "user")
        [Message "system" "You are a precise academic assistant."] ->
      text r = "[No Groq API key configured]").
Proof.
  apply (chat_without_client (Groq None "gsk_example" (fun _ => None))
           (Groq None "gsk_example" (fun _ => None))).
  reflexivity.
Defined.

(** ** More on the re-ranker *)

Lemma insert_scored_sorted (x : score * string) (l : list (score * string)) :
  Sorted by_key_desc l -> Sorted by_key_desc (insert_scored x l).
Proof.
  induction 1 as [|y l Hl IH Hy]; simpl; [repeat constructor|].
  destruct (Qle_bool (fst y) (fst x)) eqn:E.
  - apply Qle_bool_iff in E. repeat constructor; assumption.
  - assert (Hxy : (fst x <= fst y)%Q).
    { apply Qlt_le_weak, Qnot_le_lt. intros Hle.
      apply Qle_bool_iff in Hle. congruence. }
    constructor; [exact IH|].
    destruct l as [|z l]; simpl; [now constructor|].
    destruct (Qle_bool (fst z) (fst x)); constructor;
      [exact Hxy | now inversion Hy].
Qed.

Lemma sort_scored_sorted (l : list (score * string)) :
  StronglySorted by_key_desc (sort_scored l).
Proof.
  apply Sorted_StronglySorted.
  - intros a b c Hab Hbc. unfold by_key_desc in *.
    eapply Qle_trans; eassumption.
  - induction l as [|x l IH]; simpl; [constructor|].
    now apply insert_scored_sorted.
Qed.

(** Inserting never moves a pair past a pair of the same similarity. *)
Lemma insert_scored_filter (keep : score * string -> bool)
    (x : score * string) (l : list (score * string)) :
  (forall a b, keep a = true -> keep b = true ->
     Qle_bool (fst b) (fst a) = true) ->
  filter keep (insert_scored x l) = filter keep (x :: l).
Proof.
  intros Hkeep. induction l as [|y l IH]; [reflexivity|].
  cbn [insert_scored]. destruct (Qle_bool (fst y) (fst x)) eqn:E; [reflexivity|].
  cbn [filter] in *. rewrite IH.
  destruct (keep x) eqn:Ex; [|reflexivity].
  destruct (keep y) eqn:Ey; [|reflexivity].
  rewrite (Hkeep x y Ex Ey) in E. discriminate.
Qed.

Lemma same_key_le (s : score) (a b : score * string) :
  same_key s a = true -> same_key s b = true ->
  Qle_bool (fst b) (fst a) = true.
Proof.
  unfold same_key. intros Ha Hb. apply Qeq_bool_iff in Ha, Hb.
  apply Qle_bool_iff. rewrite Ha, Hb. apply Qle_refl.
Qed.

Lemma sort_scored_filter (s : score) (l : list (score * string)) :
  filter (same_key s) (sort_scored l) = filter (same_key s) l.
Proof.
  induction l as [|x l IH]; [reflexivity|].
  change (sort_scored (x :: l)) with (insert_scored x (sort_scored l)).
  rewrite insert_scored_filter by apply same_key_le.
  cbn [filter]. now rewrite IH.
Qed.

Lemma filter_map_snd {A B} (q : B -> bool) (l : list (A * B)) :
  filter q (map snd l) = map snd (filter (fun p => q (snd p)) l).
Proof.
  induction l as [|p l IH]; [reflexivity|].
  simpl. destruct (q (snd p)); simpl; now rewrite IH.
Qed.

Section Refine.

Variable n : ninjas.
Variable query : string.

Let scored (chunks : list string) : list (score * string) :=
  map (fun c => (refine_key n query c, c)) chunks.

Lemma refine_with_key (chunks : list string) :
  key_missing (ninjas_key n) "your_api_ninjas_key_here" = false ->
  _api_ninjas_refine n query chunks = map snd (sort_scored (scored chunks)).
Proof. intros H. unfold _api_ninjas_refine. now rewrite H. Qed.

Lemma scored_keys (chunks : list string) :
  Forall (fun p => fst p = refine_key n query (snd p))
    (sort_scored (scored chunks)).
Proof.
  apply Forall_forall. intros p Hin.
  apply (Permutation_in _ (sort_scored_perm _)) in Hin.
  apply in_map_iff in Hin as (c & <- & _). reflexivity.
Qed.

Lemma snd_scored (chunks : list string) : map snd (scored chunks) = chunks.
Proof. unfold scored. rewrite map_map. simpl. apply map_id. Qed.

(** The re-ranker keeps the relative order of the chunks of any one
    similarity. *)
Lemma refine_filter (s : score) (chunks : list string) :
  filter (fun c => Qeq_bool (refine_key n query c) s)
    (_api_ninjas_refine n query chunks)
  = filter (fun c => Qeq_bool (refine_key n query c) s) chunks.
Proof.
  destruct (key_missing (ninjas_key n) "your_api_ninjas_key_here") eqn:Hkey.
  - unfold _api_ninjas_refine. now rewrite Hkey.
  - rewrite refine_with_key by assumption.
    rewrite <- (snd_scored chunks) at 2. rewrite !filter_map_snd. f_equal.
    pose proof (scored_keys chunks) as Hk. rewrite Forall_forall in Hk.
    rewrite (filter_ext_in _ (same_key s) (sort_scored (scored chunks))).
    + rewrite sort_scored_filter. apply filter_ext_in. intros p Hin.
      apply (Permutation_in _ (Permutation_sym (sort_scored_perm _))) in Hin.
      unfold same_key. now rewrite (Hk p Hin).
    + intros p Hin. unfold same_key. now rewrite (Hk p Hin).
Qed.

End Refine.

Lemma sorted_by_refine_key (n : ninjas) (query : string)
    (l : list (score * string)) :
  StronglySorted by_key_desc l ->
  Forall (fun p => fst p = refine_key n query (snd p)) l ->
  StronglySorted
    (fun a b => (refine_key n query b <= refine_key n query a)%Q)
    (map snd l).
Proof.
  induction 1 as [|a l Hl IH Ha]; intros Hk; simpl; [constructor|].
  inversion Hk as [|? ? Hka Hkl]; subst. constructor; [now apply IH|].
  apply Forall_map. rewrite Forall_forall in *. intros p Hp.
  specialize (Ha p Hp). unfold by_key_desc in Ha.
  now rewrite <- Hka, <- (Hkl p Hp).
Qed.

(** X11: with a key configured, the chunks returned by the re-ranker
    are in descending order of the similarity the service gave them, a
    failed or non-ok call counting as 0. *)
Theorem api_ninjas_refine_descending (n : ninjas) (query : string)
    (chunks : list string) :
  key_missing (ninjas_key n) "your_api_ninjas_key_here" = false ->
  StronglySorted
    (fun a b => (refine_key n query b <= refine_key n query a)%Q)
    (_api_ninjas_refine n query chunks).
Proof.
  intros Hkey. rewrite refine_with_key by assumption.
  apply sorted_by_refine_key; [apply sort_scored_sorted | apply scored_keys].
Qed.

Lemma api_ninjas_refine_descending_witness :
  StronglySorted
    (fun a b => (refine_key likes_c "cats" b <= refine_key likes_c "cats" a)%Q)
    (_api_ninjas_refine likes_c "cats"
       ["Fees are due."; "Cats sleep."; "Music."; "Cats eat."]).
Proof. apply api_ninjas_refine_descending. reflexivity. Defined.

(** X13: the re-ranker is stable: for every similarity value, the
    chunks that got this value come out in the order they went in. *)
Theorem api_ninjas_refine_stable (n : ninjas) (query : string)
    (chunks : list string) (s : score) :
  filter (fun c => Qeq_bool (refine_key n query c) s)
    (_api_ninjas_refine n query chunks)
  = filter (fun c => Qeq_bool (refine_key n query c) s) chunks.
Proof. apply refine_filter. Qed.

Lemma filter_all {A} (q : A -> bool) (l : list A) :
  (forall x, In x l -> q x = true) -> filter q l = l.
Proof.
  induction l as [|x l IH]; intros H; [reflexivity|].
  simpl. rewrite (H x (or_introl eq_refl)). f_equal.
  apply IH. intros y Hy. apply H. now right.
Qed.

(** X12: when every chunk gets the same similarity, the re-ranker
    returns the chunks in the order it received them; this is the case
    when every call to the service fails (each counts as 0). *)
Theorem api_ninjas_refine_degraded (n : ninjas) (query : string)
    (chunks : list string) (s : score) :
  (forall c, In c chunks -> (refine_key n query c == s)%Q) ->
  _api_ninjas_refine n query chunks = chunks.
Proof.
  intros Hall.
  assert (Hq : forall c, In c chunks ->
                 Qeq_bool (refine_key n query c) s = true)
    by (intros c Hc; now apply Qeq_bool_iff, Hall).
  rewrite <- (filter_all (fun c => Qeq_bool (refine_key n query c) s)
                (_api_ninjas_refine n query chunks)).
  - rewrite refine_filter. now apply filter_all.
  - intros c Hc. apply Hq.
    now apply (Permutation_in _ (api_ninjas_refine_lists n query chunks)).
Qed.

Lemma api_ninjas_refine_degraded_witness :
  _api_ninjas_refine all_calls_fail "cats"
    ["Fees are due."; "Cats sleep."; "Music."]
  = ["Fees are due."; "Cats sleep."; "Music."].
Proof.
  apply (api_ninjas_refine_degraded all_calls_fail "cats" _ 0%Q).
  intros c _. reflexivity.
Defined.

(** ** More on the ranker and the orchestrators *)

Section OrchestratorFacts.

Variable cosine : string -> list string -> string -> score.
Variable argsort : list score -> list nat.
Variable mean : list score -> score.
Variable f : folder.


(** The ranker on documents that are extracted and yield no chunk. *)
Lemma rank_pdfs_no_candidate (query : string) (pdfs : list string) :
  (forall pdf, In pdf pdfs -> extracts f pdf /\ doc_chunks f pdf = []) ->
  forall b, rank_pdfs cosine argsort mean f query b pdfs = Ok b.
Proof.
  induction pdfs as [|pdf rest IH]; intros Hnone b; [reflexivity|].
  cbn [rank_pdfs].
  destruct (Hnone pdf (or_introl eq_refl)) as [[text Ht] Hno].
  destruct (rank_pdf_cases cosine argsort mean f query b pdf)
    as [(e & He & _) | [(_ & _ & E) | [(Hc & _) | [(Hc & _) | (Hc & _)]]]];
    try contradiction; try congruence.
  rewrite E. cbn [bind]. apply IH. intros q Hq. apply Hnone. now right.
Qed.

Lemma tfidf_no_candidate (query : string) (pdfs : list string) :
  (forall pdf, In pdf pdfs -> extracts f pdf /\ doc_chunks f pdf = []) ->
  _tfidf_best_pdf_and_chunks cosine argsort mean f query pdfs
  = Ok ("", [], 0%Q).
Proof.
  intros Hnone. unfold _tfidf_best_pdf_and_chunks.
  now rewrite rank_pdfs_no_candidate.
Qed.

End OrchestratorFacts.

Lemma unlocked_extracts (f : folder) (pdf : string) :
  is_locked f pdf = false -> extracts f pdf.
Proof.
  intros H. destruct (extraction_cases f pdf) as [[Hl _] | [_ Hex]];
    [congruence | exact Hex].
Qed.

Lemma unlocked_blank (f : folder) (pdf : string) :
  is_locked f pdf = false -> page_words f pdf = [] -> doc_chunks f pdf = [].
Proof.
  intros Hl Hw. destruct (unlocked_extracts f pdf Hl) as [text E].
  unfold doc_chunks. rewrite E. apply chunk_text_empty_iff_words.
  now rewrite (extracted_words f pdf text E).
Qed.



(** X16: when the folder lists documents, none of them a locked file,
    and none has a word on a page that opens (missing, unreadable or
    blank files), both orchestrators return their "no relevant
    document" triple with an empty document name and score 0; the
    vectorizer and the services are never reached, so this holds for
    every question. *)
Theorem orchestrators_without_candidate
    (cosine : string -> list string -> string -> score)
    (argsort : list score -> list nat)
    (mean : list score -> score) (f : folder) (n : ninjas) (g : groq)
    (question : string) :
  discover_pdfs f <> [] ->
  (forall pdf, In pdf (discover_pdfs f) ->
     is_locked f pdf = false /\ page_words f pdf = []) ->
  answer_question_auto cosine argsort mean f n g question
  = Ok ("[Could not determine a relevant PDF for this question]", "", 0%Q)
  /\ summarize_on_prompt cosine argsort mean f g question
     = Ok ("[Could not find relevant information to summarize. Please try again or refer the website]",
           "", 0%Q).
Proof.
  intros Hne Hblank. unfold answer_question_auto, summarize_on_prompt.
  destruct (discover_pdfs f) as [|pdf rest]; [contradiction|].
  rewrite tfidf_no_candidate; [split; reflexivity|].
  intros q Hq. destruct (Hblank q Hq) as [Hl Hw]. split.
  - now apply unlocked_extracts.
  - now apply unlocked_blank.
Qed.

Lemma orchestrators_without_candidate_witness :
  answer_question_auto unrelated stable_argsort exact_mean
    (Some [("broken.pdf", Unreadable); ("blank.pdf", Pages [Some "  "; None])])
    all_calls_fail no_credential "?"
  = Ok ("[Could not determine a relevant PDF for this question]", "", 0%Q)
  /\ summarize_on_prompt unrelated stable_argsort exact_mean
       (Some [("broken.pdf", Unreadable); ("blank.pdf", Pages [Some "  "; None])])
       no_credential "?"
     = Ok ("[Could not find relevant information to summarize. Please try again or refer the website]",
           "", 0%Q).
Proof.
  apply orchestrators_without_candidate.
  - discriminate.
  - intros pdf [<-|[<-|[]]]; split; reflexivity.
Defined.

(** X17: whenever the ranker returns [(p, chunks, s)] on the listed
    documents, [summarize_on_prompt] returns a triple with the same [p]
    and [s]; when a document was selected, the summary is the reply to
    the prompt built from [chunks] in the ranker's order (this
    orchestrator does not re-rank).  When the ranker raises, so does
    the orchestrator. *)
Theorem summarize_keeps_ranking
    (cosine : string -> list string -> string -> score)
    (argsort : list score -> list nat)
    (mean : list score -> score) (f : folder) (g : groq)
    (prompt_text : string) :
  match _tfidf_best_pdf_and_chunks cosine argsort mean f prompt_text (discover_pdfs f)
  with
  | Ok (p, chunks, s) =>
      exists out,
        summarize_on_prompt cosine argsort mean f g prompt_text = Ok (out, p, s)
        /\ (p <> "" ->
            out = text (fst (_chat_complete g
                    [Message "system"
                       "You create faithful, high-level summaries of academic/policy PDFs.";
                     Message "user"
                       (summary_prompt p prompt_text (paragraphs chunks))])))
  | Raise e => summarize_on_prompt cosine argsort mean f g prompt_text = Raise e
  end.
Proof.
  unfold summarize_on_prompt.
  pose proof (discover_pdfs_named f) as Hnamed.
  destruct (discover_pdfs f) as [|pdf rest] eqn:Hpdfs.
  - cbn. eexists. split; [reflexivity|]. intros H. now contradiction H.
  - destruct (_tfidf_best_pdf_and_chunks cosine argsort mean f prompt_text (pdf :: rest))
      as [[[p chunks] s]|e] eqn:H; cbn [bind]; [|reflexivity].
    destruct (String.eqb p "") eqn:Hp.
    + apply String.eqb_eq in Hp. subst p.
      destruct (tfidf_result _ _ _ _ _ _ _ _ _ H)
        as [(_ & _ & -> & _) | (before & after & Hin & _)].
      * eexists. split; [reflexivity|]. intros Hne. now contradiction Hne.
      * exfalso. apply (Hnamed ""); [|reflexivity].
        rewrite Hin. apply in_or_app. right. now left.
    + eexists. split; reflexivity.
Qed.

(** ** Configuration keys *)

(** X18: with a usable inline default, a key read by [config.py] is
    missing (empty or the placeholder) in two cases only: the secrets
    store holds an entry for it that is empty or the placeholder, or
    there is no such entry and the environment variable is the
    placeholder itself.  An unset or empty environment variable never
    turns a service off: the inline default is used. *)
Theorem read_key_missing_iff (name default placeholder : string)
    (environ : string -> option string) (s : secrets) :
  placeholder <> "" ->
  key_missing default placeholder = false ->
  (key_missing (read_key name default environ s) placeholder = true
   <-> (exists entries v,
          s = Secrets entries /\ secret name entries = Some v
          /\ key_missing v placeholder = true)
       \/ ((s = NoSecrets
            \/ exists entries, s = Secrets entries /\ secret name entries = None)
           /\ environ name = Some placeholder)).
Proof.
  intros Hph Hdef.
  assert (Henv : key_missing (getenv_or (environ name) default) placeholder = true
                 <-> environ name = Some placeholder).
  { unfold getenv_or. destruct (environ name) as [v|].
    - destruct (String.eqb v "") eqn:Ev.
      + apply String.eqb_eq in Ev. subst v. rewrite Hdef. split; [discriminate|].
        intros H. injection H as H. now contradiction Hph.
      + unfold key_missing. rewrite Ev. simpl. rewrite String.eqb_eq.
        split; [now intros -> | now intros [= ->]].
    - rewrite Hdef. split; discriminate. }
  unfold read_key. destruct s as [|entries].
  - rewrite Henv. split.
    + intros H. right. split; [now left | exact H].
    + intros [(entries & v & Hs & _) | [_ H]]; [discriminate | exact H].
  - destruct (secret name entries) as [v|] eqn:Es.
    + split.
      * intros H. left. now exists entries, v.
      * intros [(entries' & v' & [= <-] & Hv & H) | [[Hs | (entries' & [= <-] & Hn)] _]];
          try discriminate; try congruence.
    + rewrite Henv. split.
      * intros H. right. split; [right; now exists entries | exact H].
      * intros [(entries' & v' & [= <-] & Hv & _) | [_ H]]; [congruence | exact H].
Qed.

Lemma read_key_missing_iff_witness :
  key_missing
    (get_groq_api_key "gsk_example" (fun _ => Some "")
       (Secrets [("API_NINJAS_KEY", "")]))
    "your_groq_api_key_here" = true
  <-> (exists entries v,
         Secrets [("API_NINJAS_KEY", "")] = Secrets entries
         /\ secret "GROQ_API_KEY" entries = Some v
         /\ key_missing v "your_groq_api_key_here" = true)
      \/ ((Secrets [("API_NINJAS_KEY", "")] = NoSecrets
           \/ exists entries,
                Secrets [("API_NINJAS_KEY", "")] = Secrets entries
                /\ secret "GROQ_API_KEY" entries = None)
          /\ (fun _ : string => Some "") "GROQ_API_KEY"
             = Some "your_groq_api_key_here").
Proof.
  apply (read_key_missing_iff "GROQ_API_KEY" "gsk_example"
           "your_groq_api_key_here"); [discriminate | reflexivity].
Defined.

(** ** Summarizing a long text *)

Lemma get_client_none (g g' : groq) : _get_client g = (None, g') -> g' = g.
Proof.
  unfold _get_client. destruct (_groq_client g); [discriminate|].
  destruct (key_missing (groq_key g) "your_groq_api_key_here");
    [now intros [= <-]|].
  destruct (groq_connect g (groq_key g)); [discriminate | now intros [= <-]].
Qed.

Lemma chat_complete_no_client (g g' : groq) (messages : list message) :
  _get_client g = (None, g') ->
  snd (_chat_complete g messages) = g
  /\ (String.length (text (fst (_chat_complete g messages))) <= 803)%nat.
Proof.
  intros H. pose proof (get_client_none g g' H) as ->.
  unfold _chat_complete, chat_with. rewrite H.
  destruct (last_user (rev messages)); cbn; split; try reflexivity.
  - apply fallback_text_length.
  - lia.
Qed.

Lemma summarize_sections_no_client (dash : ascii) (g g' : groq)
    (chunks : list string) :
  _get_client g = (None, g') ->
  snd (summarize_sections dash g chunks) = g.
Proof.
  intros H. induction chunks as [|c rest IH]; [reflexivity|].
  cbn [summarize_sections].
  destruct (_chat_complete g _) as [r g1] eqn:E.
  assert (Hg1 : g1 = g).
  { pose proof (proj1 (chat_complete_no_client g g'
        [Message "system" "You are a concise academic summarizer.";
         Message "user" (section_prompt dash c)] H)) as Hs.
    rewrite E in Hs. exact Hs. }
  subst g1. destruct (summarize_sections dash g rest) as [partials g2].
  exact IH.
Qed.

(** X19: [summarize_text_long] on a text without a word returns the
    empty summary without calling the generation client; and when no
    client is available, its summary of any text has at most 803
    characters (it is a truncated prompt) and the client global is left
    as it was. *)
Theorem summarize_text_long_edges (dash : ascii) (g : groq) (txt : string) :
  (PyStr.split txt = [] -> summarize_text_long dash g txt = ("", g))
  /\ (forall g', _get_client g = (None, g') ->
        snd (summarize_text_long dash g txt) = g
        /\ (String.length (fst (summarize_text_long dash g txt)) <= 803)%nat).
Proof.
  unfold summarize_text_long. split.
  - intros H. apply (chunk_text_empty_iff_words txt MAX_WORDS_PER_CHUNK) in H.
    now rewrite H.
  - intros g' Hg.
    destruct (chunk_text txt MAX_WORDS_PER_CHUNK) as [|c cs]; [split; cbn; [reflexivity | lia]|].
    pose proof (summarize_sections_no_client dash g g' (c :: cs) Hg) as Hs.
    destruct (summarize_sections dash g (c :: cs)) as [partials g1].
    cbn [snd] in Hs. subst g1.
    pose proof (chat_complete_no_client g g'
      [Message "system" "You write clean, faithful, non-redundant summaries.";
       Message "user" (unify_prompt (String.concat (newline ++ newline) partials))]
      Hg) as [H1 H2].
    destruct (_chat_complete g _) as [r g2]. cbn [fst snd] in *.
    now split.
Qed.

(** ** The size of the context *)

(** X20: the ranker never returns more than [TOP_K_CHUNKS_FOR_QA]
    chunks, whatever indices [np.argsort] gives, and each returned
    chunk is a chunk of the selected document when the indices are
    those of the contract. *)
Theorem tfidf_returns_at_most_k_chunks
    (cosine : string -> list string -> string -> score)
    (argsort : list score -> list nat)
    (mean : list score -> score) (f : folder) (query : string)
    (pdfs : list string) (p : string) (out : list string) (s : score) :
  _tfidf_best_pdf_and_chunks cosine argsort mean f query pdfs = Ok (p, out, s) ->
  (List.length out <= TOP_K_CHUNKS_FOR_QA)%nat
  /\ (argsort_ok argsort -> forall c, In c out -> In c (doc_chunks f p)).
Proof.
  intros H.
  destruct (tfidf_result _ _ _ _ _ _ _ _ _ H)
    as [(_ & -> & _) | (before & after & _ & _ & _ & -> & _)].
  - split; [simpl; lia | intros _ c []].
  - unfold top_chunks, top_indices. split.
    + rewrite length_map, length_firstn. apply Nat.le_min_l.
    + intros Hok c Hc. apply in_map_iff in Hc as (i & <- & Hi).
      apply nth_In.
      pose proof (top_indices_spec argsort (doc_sims cosine f query p) Hok)
        as (_ & Hlt & _).
      rewrite Forall_forall in Hlt. specialize (Hlt i Hi).
      unfold doc_sims in Hlt. now rewrite length_map in Hlt.
Qed.

Lemma tfidf_returns_at_most_k_chunks_witness :
  (List.length [music_text] <= TOP_K_CHUNKS_FOR_QA)%nat
  /\ (argsort_ok stable_argsort ->
      forall c, In c [music_text] -> In c (doc_chunks music_and_cats "music.pdf")).
Proof.
  apply (tfidf_returns_at_most_k_chunks repeats_or_unrelated stable_argsort exact_mean
           music_and_cats music_text ["cats.pdf"; "music.pdf"]
           "music.pdf" [music_text] 1%Q).
  vm_compute. reflexivity.
Defined.
